(** * gomarkdoc command: specification resolution and output reconciliation

    A shallow embedding of [cmd/command.go] and [cmd/output.go] together with
    the properties the specification states about them.

    Conventions of the embedding:
    - file contents and rendered text are byte sequences, [list ascii] (a Go
      [[]byte] or [string] seen as bytes);
    - paths, flag names and tags are [string];
    - the host is a Unix one: [os.PathSeparator] is ["/"] and
      [filepath.FromSlash] is the identity;
    - the file system, standard output and the effects performed are threaded
      explicitly through a small state monad [IO];
    - calls to the logger only write diagnostics and are left out. *)

From Stdlib Require Import ZArith Ascii String List Lia Bool.
From stdpp Require Import base option list gmap strings.

Open Scope list_scope.

(* ===================================================================== *)
(** * Bytes and text                                                       *)
(* ===================================================================== *)

Abbreviation text := (list ascii).

(** [[]byte(s)] for a literal [s]. *)
Definition bytes (s : string) : text := list_ascii_of_string s.

Definition nl : ascii := "010"%char.

Definition is_nl (c : ascii) : bool := Ascii.eqb c nl.

(* ===================================================================== *)
(** * The fragment of Go's [regexp] syntax used by [output.go]            *)
(* ===================================================================== *)

(** Character classes that appear under a repetition in the two patterns:
    [" "], [\s] (which is [[\t\n\f\r ]] in Go) and [(?s:.)].  Go matches
    code points; every byte the two patterns name is an ASCII one, which
    never occurs inside the encoding of another code point, so reading the
    text byte by byte finds the same matches. *)
Inductive cclass : Type :=
| CSpace
| CWhite
| CAny.

Definition in_class (k : cclass) (c : ascii) : bool :=
  match k with
  | CSpace => Ascii.eqb c " "
  | CWhite =>
      Ascii.eqb c "009" || Ascii.eqb c "010" || Ascii.eqb c "012"
      || Ascii.eqb c "013" || Ascii.eqb c " "
  | CAny => true
  end.

(** One element of a pattern.  [Star true k] is the greedy [k*], [Star false
    k] the reluctant [k*?]; [Bol] and [Eol] are [^] and [$] under the [m]
    flag. *)
Inductive atom : Type :=
| Lit (c : ascii)
| Star (greedy : bool) (k : cclass)
| Bol
| Eol.

(** A pattern is a concatenation of atoms. *)
Abbreviation regex := (list atom).

Definition lit (s : string) : regex := map Lit (bytes s).

(** [(?m:$)]: at the end of the text or just before a line feed. *)
Definition at_eol (s : text) : bool :=
  match s with
  | [] => true
  | c :: _ => is_nl c
  end.

(** Go's matcher returns the leftmost match and, among the matches that start
    there, the one a backtracking search finds first.  [run r bol s] is that
    backtracking search anchored at the current position: [s] is the text from
    the position on and [bol] tells whether the position is at the beginning
    of the text or just after a line feed.  The result is the text that
    remains after the match, with the same flag for the position reached. *)
Fixpoint star (greedy : bool) (k : cclass)
    (cont : bool -> text -> option (bool * text))
    (bol : bool) (s : text) : option (bool * text) :=
  match s with
  | c :: s' =>
      if in_class k c then
        if greedy then
          match star greedy k cont (is_nl c) s' with
          | Some e => Some e
          | None => cont bol s
          end
        else
          match cont bol s with
          | Some e => Some e
          | None => star greedy k cont (is_nl c) s'
          end
      else cont bol s
  | [] => cont bol s
  end.

Fixpoint run (r : regex) (bol : bool) (s : text) : option (bool * text) :=
  match r with
  | [] => Some (bol, s)
  | Lit c :: r' =>
      match s with
      | c' :: s' => if Ascii.eqb c c' then run r' (is_nl c') s' else None
      | [] => None
      end
  | Star g k :: r' => star g k (run r') bol s
  | Bol :: r' => if bol then run r' bol s else None
  | Eol :: r' => if at_eol s then run r' bol s else None
  end.

(** The result of a search: the text skipped before the match, and the
    position after the match. *)
Record found : Type := mkFound {
  skipped : text;
  after_bol : bool;
  after : text
}.

Definition further (c : ascii) (f : found) : found :=
  mkFound (c :: skipped f) (after_bol f) (after f).

(** Leftmost match at or after the current position. *)
Fixpoint find (r : regex) (bol : bool) (s : text) : option found :=
  match run r bol s with
  | Some (bol', rest) => Some (mkFound [] bol' rest)
  | None =>
      match s with
      | [] => None
      | c :: s' => option_map (further c) (find r (is_nl c) s')
      end
  end.

(** [re.ReplaceAllFunc(data, func(_ []byte) []byte { replacements++; return
    repl })]: every match, left to right and without overlap, is replaced by
    [repl]; the second component counts the calls of the callback.  Both
    patterns of this file never match the empty text (lemmas
    [standalone_consumes] and [start_consumes]), so the library's special
    treatment of empty matches never applies to them and is not modelled.
    Every round then shortens the text that remains, and a fuel equal to the
    length of the text is enough (lemma [replaceAll_fuel]). *)
Fixpoint replaceAll (fuel : nat) (r : regex) (repl : text) (bol : bool)
    (s : text) : text * nat :=
  match fuel with
  | O => (s, O)
  | S fuel' =>
      match find r bol s with
      | None => (s, O)
      | Some f =>
          let '(out, n) := replaceAll fuel' r repl (after_bol f) (after f) in
          (skipped f ++ repl ++ out, S n)
      end
  end.

Definition ReplaceAllFunc (r : regex) (data repl : text) : text * nat :=
  replaceAll (length data) r repl true data.

(** ** [regexp.MustCompile] on the syntax the two patterns use

    A group [(?m:] or [(?s:] sets a flag up to its closing parenthesis (the
    patterns do not nest groups); [^] and [$] are read under the [m] flag and
    [.] under the [s] flag; [\s] and [.] are read with the repetition that
    follows them, and so is a space followed by a star; any other byte stands
    for itself.  Neither pattern carries the [i] flag: the bytes of the keyword
    are matched as they are written.  [None] for any other syntax. *)
Fixpoint parse (m s : bool) (pat : text) : option regex :=
  let seq (a : atom) (rest : option regex) : option regex :=
    match rest with
    | Some r => Some (a :: r)
    | None => None
    end in
  match pat with
  | [] => Some []
  | "("%char :: "?"%char :: "m"%char :: ":"%char :: pat' => parse true s pat'
  | "("%char :: "?"%char :: "s"%char :: ":"%char :: pat' => parse m true pat'
  | "("%char :: _ => None
  | ")"%char :: pat' => parse false false pat'
  | "^"%char :: pat' => if m then seq Bol (parse m s pat') else None
  | "$"%char :: pat' => if m then seq Eol (parse m s pat') else None
  | "\"%char :: "s"%char :: "*"%char :: "?"%char :: pat' =>
      seq (Star false CWhite) (parse m s pat')
  | "\"%char :: "s"%char :: "*"%char :: pat' =>
      seq (Star true CWhite) (parse m s pat')
  | "\"%char :: _ => None
  | "."%char :: "*"%char :: "?"%char :: pat' =>
      if s then seq (Star false CAny) (parse m s pat') else None
  | "."%char :: "*"%char :: pat' =>
      if s then seq (Star true CAny) (parse m s pat') else None
  | "."%char :: _ => None
  | " "%char :: "*"%char :: "?"%char :: pat' =>
      seq (Star false CSpace) (parse m s pat')
  | " "%char :: "*"%char :: pat' => seq (Star true CSpace) (parse m s pat')
  | "*"%char :: _ => None
  | "?"%char :: _ => None
  | "+"%char :: _ => None
  | "["%char :: _ => None
  | "|"%char :: _ => None
  | "{"%char :: _ => None
  | c :: pat' => seq (Lit c) (parse m s pat')
  end.

(** [regexp.MustCompile(pattern)]; the two patterns do compile (lemmas
    [embedStandaloneRegex_atoms] and [embedStartRegex_atoms]). *)
Definition MustCompile (pattern : string) : regex :=
  match parse false false (bytes pattern) with
  | Some r => r
  | None => []
  end.

Definition embedStandaloneRegex : regex :=
  MustCompile "(?m:^ *)<!--\s*gomarkdoc:Embed\s*-->(?m:\s*?$)".

Definition embedStartRegex : regex :=
  MustCompile
    "(?m:^ *)<!--\s*gomarkdoc:Embed:start\s*-->(?s:.*?)<!--\s*gomarkdoc:Embed:end\s*-->(?m:\s*?$)".

(* ===================================================================== *)
(** * Errors, the file system and effects                                  *)
(* ===================================================================== *)

Inductive errno : Type := ENOENT | EACCES | EISDIR | EIO.

(** Go error values.  [ErrNotExist] is the sentinel [os.ErrNotExist];
    [PathError] is the [*fs.PathError] that every failing call of the [os]
    package returns; [Wrap prefix e] is [fmt.Errorf(prefix + "%w", e)]. *)
Inductive error : Type :=
| ErrNotExist
| ErrorString (msg : string)
| PathError (op path : string) (e : errno)
| FlagError (msg : string)
| Wrap (prefix : string) (cause : error).

(** [err == os.ErrNotExist]: the comparison of two interface values holds
    only for the same dynamic type and the same pointer, that is, only for the
    sentinel itself; it does not look through a [*fs.PathError]. *)
Definition is_ErrNotExist (err : error) : bool :=
  match err with
  | ErrNotExist => true
  | _ => false
  end.

(** What a path holds: a readable file, a file whose reading breaks off after
    some bytes, or something that cannot be opened.  A path that is not in the
    map does not exist. *)
Inductive fnode : Type :=
| Regular (content : text)
| ReadFails (delivered : text) (e : errno)
| OpenFails (e : errno).

Inductive event : Type :=
| EvOpen (path : string)
| EvReadFile (path : string)
| EvMkdirAll (path : string)
| EvWriteFile (path : string) (data : text)
| EvStdout (data : text).

Record world : Type := mkWorld {
  files : gmap string fnode;
  mkdir_errno : string -> option errno;
  write_errno : string -> option errno;
  effects : list event
}.

Definition log_event (ev : event) (w : world) : world :=
  mkWorld (files w) (mkdir_errno w) (write_errno w) (effects w ++ [ev]).

Definition store (path : string) (data : text) (w : world) : world :=
  mkWorld (<[path := Regular data]> (files w)) (mkdir_errno w) (write_errno w)
          (effects w).

Definition IO (A : Type) : Type := world -> A * world.

Definition ret {A : Type} (a : A) : IO A := fun w => (a, w).

Definition bind {A B : Type} (m : IO A) (f : A -> IO B) : IO B :=
  fun w => let '(a, w') := m w in f a w'.

Notation "x <- m ;; k" := (bind m (fun x => k))
  (at level 100, m at next level, right associativity).

(** An [io.Reader]: the bytes it delivers, and the error (if any) that ends
    the stream instead of [io.EOF]. *)
Record reader : Type := mkReader {
  delivered : text;
  failure : option error
}.

(** [bytes.Buffer] as a reader. *)
Definition buffer (b : text) : reader := mkReader b None.

Definition os_Open (path : string) : IO (reader + error) :=
  fun w =>
    (match files w !! path with
     | None => inr (PathError "open" path ENOENT)
     | Some (OpenFails e) => inr (PathError "open" path e)
     | Some (Regular c) => inl (mkReader c None)
     | Some (ReadFails c e) => inl (mkReader c (Some (PathError "read" path e)))
     end, log_event (EvOpen path) w).

Definition os_ReadFile (path : string) : IO (text + error) :=
  fun w =>
    (match files w !! path with
     | None => inr (PathError "open" path ENOENT)
     | Some (OpenFails e) => inr (PathError "open" path e)
     | Some (Regular c) => inl c
     | Some (ReadFails _ e) => inr (PathError "read" path e)
     end, log_event (EvReadFile path) w).

Definition os_MkdirAll (path : string) : IO (option error) :=
  fun w =>
    (match mkdir_errno w path with
     | Some e => Some (PathError "mkdir" path e)
     | None => None
     end, log_event (EvMkdirAll path) w).

Definition ioutil_WriteFile (path : string) (data : text) : IO (option error) :=
  fun w =>
    match write_errno w path with
    | Some e => (Some (PathError "open" path e), log_event (EvWriteFile path data) w)
    | None => (None, store path data (log_event (EvWriteFile path data) w))
    end.

Definition Fprint_Stdout (data : text) : IO unit :=
  fun w => (tt, log_event (EvStdout data) w).

(* ===================================================================== *)
(** * [hash/fnv]: the 128-bit FNV-1 digest                                 *)
(* ===================================================================== *)

Open Scope Z_scope.

Definition offset128 : Z := 0x6c62272e07bb014262b821756295c58d.
Definition prime128 : Z := 0x0000000001000000000000000000013b.
Definition two128 : Z := 2 ^ 128.

Definition byte_val (c : ascii) : Z := Z.of_N (N_of_ascii c).

(** One round of [sum128.Write]: multiply by the prime modulo [2^128], then
    xor the byte into the low end. *)
Definition fnv_round (h : Z) (c : ascii) : Z :=
  Z.lxor ((h * prime128) mod two128) (byte_val c).

(** [h := fnv.New128(); h.Write(data); h.Sum(nil)], the digest as a number
    ([Sum] writes its sixteen bytes in big-endian order, so two digests are
    equal as byte slices exactly when they are equal as numbers). *)
Definition fnv128 (data : text) : Z := fold_left fnv_round data offset128.

Close Scope Z_scope.

(* ===================================================================== *)
(** * [command.go]: Compare                                                *)
(* ===================================================================== *)

Definition Compare (r1 r2 : reader) : bool * option error :=
  match failure r1 with
  | Some err =>
      (false, Some (Wrap "gomarkdoc: failed when checking documentation: " err))
  | None =>
      match failure r2 with
      | Some err =>
          (false,
           Some (Wrap "gomarkdoc: failed when checking documentation: " err))
      | None => (Z.eqb (fnv128 (delivered r1)) (fnv128 (delivered r2)), None)
      end
  end.

(* ===================================================================== *)
(** * [output.go]: CheckFile, EmbedContents                                *)
(* ===================================================================== *)

Definition checkErr : error :=
  ErrorString
    "Output does not match current files. Did you forget to run gomarkdoc?".

Definition CheckFile (b : text) (path : string) : IO (option error) :=
  f <- os_Open path ;;
  match f with
  | inr err =>
      if is_ErrNotExist err then ret (Some checkErr)
      else
        ret (Some (Wrap ("failed to open file " +:+ path +:+ " for checking: ")
                         err))
  | inl f =>
      match Compare (buffer b) f with
      | (_, Some err) =>
          ret (Some (Wrap ("failure while attempting to Check contents of "
                            +:+ path +:+ ": ") err))
      | (matched, None) =>
          if negb matched then ret (Some checkErr) else ret None
      end
  end.

Definition startMarker : text := bytes "<!-- gomarkdoc:Embed:start -->".
Definition endMarker : text := bytes "<!-- gomarkdoc:Embed:end -->".

(** [fmt.Sprintf] of the start marker, a blank line, the text, a blank line
    and the end marker. *)
Definition embedText (t : text) : text :=
  startMarker ++ [nl; nl] ++ t ++ [nl; nl] ++ endMarker.

Definition EmbedContents (fileName : string) (t : text) : IO text :=
  r <- os_ReadFile fileName ;;
  match r with
  | inr _ => ret (embedText t)
  | inl data =>
      let '(data, n1) := ReplaceAllFunc embedStandaloneRegex data (embedText t) in
      let '(data, n2) := ReplaceAllFunc embedStartRegex data (embedText t) in
      let replacements := (n1 + n2)%nat in
      if Nat.eqb replacements 0 then ret (data ++ [nl; nl] ++ t)
      else ret data
  end.

(* ===================================================================== *)
(** * [strings] and [path/filepath] on a Unix host                         *)
(* ===================================================================== *)

Open Scope string_scope.

Definition HasPrefix (s pre : string) : bool := String.prefix pre s.

Definition HasSuffix (s suf : string) : bool :=
  Nat.leb (String.length suf) (String.length s)
  && String.eqb (substring (String.length s - String.length suf)
                           (String.length suf) s) suf.

(** [strings.Split(s, sep)] for a one-byte separator. *)
Fixpoint Split (s : string) (sep : ascii) : list string :=
  match s with
  | EmptyString => [EmptyString]
  | String c s' =>
      if Ascii.eqb c sep then EmptyString :: Split s' sep
      else
        match Split s' sep with
        | w :: ws => String c w :: ws
        | [] => [String c EmptyString]
        end
  end.

(** [strings.Join(elems, sep)] *)
Fixpoint Join (elems : list string) (sep : string) : string :=
  match elems with
  | [] => ""
  | [e] => e
  | e :: es => e +:+ sep +:+ Join es sep
  end.

(** The white space of [strings.Fields] among single bytes. *)
Definition asciiSpace (c : ascii) : bool :=
  Ascii.eqb c "009" || Ascii.eqb c "010" || Ascii.eqb c "011"
  || Ascii.eqb c "012" || Ascii.eqb c "013" || Ascii.eqb c " ".

(** [strings.Fields(s)]: the maximal runs of bytes that are not white space;
    [cur] is the field being read. *)
Fixpoint fields_from (cur : string) (s : string) : list string :=
  match s with
  | EmptyString => if String.eqb cur "" then [] else [cur]
  | String c s' =>
      if asciiSpace c then
        if String.eqb cur "" then fields_from "" s'
        else cur :: fields_from "" s'
      else fields_from (cur +:+ String c "") s'
  end.

Definition Fields (s : string) : list string := fields_from "" s.

(** [filepath.Clean]: the path is read element by element; [out] is the stack
    of elements kept so far, innermost first. *)
Definition clean_elem (rooted : bool) (out : list string) (elem : string)
    : list string :=
  if String.eqb elem "" || String.eqb elem "." then out
  else if String.eqb elem ".." then
    match out with
    | top :: below => if String.eqb top ".." then ".." :: out else below
    | [] => if rooted then [] else [".."]
    end
  else elem :: out.

Definition filepath_Clean (path : string) : string :=
  if String.eqb path "" then "."
  else
    let rooted := HasPrefix path "/" in
    let out := fold_left (clean_elem rooted) (Split path "/") [] in
    let body := Join (rev out) "/" in
    if rooted then "/" +:+ body
    else if String.eqb body "" then "." else body.

(** [filepath.Join(a, b)] *)
Definition filepath_Join (a b : string) : string :=
  if negb (String.eqb a "") then filepath_Clean (a +:+ "/" +:+ b)
  else if negb (String.eqb b "") then filepath_Clean b
  else "".

(** The part of [path] up to and including its last separator. *)
Fixpoint upto_last_sep (path : string) : string :=
  match path with
  | EmptyString => ""
  | String c s' =>
      let r := upto_last_sep s' in
      if String.eqb r "" then (if Ascii.eqb c "/" then "/" else "")
      else String c r
  end.

Definition filepath_Dir (path : string) : string :=
  filepath_Clean (upto_last_sep path).

Definition filepath_IsAbs (path : string) : bool := HasPrefix path "/".

(* ===================================================================== *)
(** * [output.go]: WriteFile                                               *)
(* ===================================================================== *)

Definition WriteFile (fileName : string) (t : text) : IO (option error) :=
  let folder := filepath_Dir fileName in
  made <- (if negb (String.eqb folder "") then os_MkdirAll folder
           else ret None) ;;
  match made with
  | Some err =>
      ret (Some (Wrap ("failed to create folder " +:+ folder +:+ ": ") err))
  | None =>
      written <- ioutil_WriteFile fileName t ;;
      match written with
      | Some err =>
          ret (Some (Wrap ("failed to write file " +:+ fileName +:+ ": ") err))
      | None => ret None
      end
  end.

Close Scope string_scope.

(* ===================================================================== *)
(** * [command.go]: DefaultTags                                            *)
(* ===================================================================== *)

Open Scope string_scope.

(** [name] cut at its first ['='] that is not its first byte: the flag name
    and, if there is such a byte, the value after it. *)
Fixpoint cut_value (name : string) : string * option string :=
  match name with
  | EmptyString => ("", None)
  | String c s' =>
      match s' with
      | String "="%char v => (String c "", Some v)
      | _ =>
          let '(n, v) := cut_value s' in
          (String c n, v)
      end
  end.

(** [fs.Parse(args)] for the flag set of [DefaultTags]: error handling
    [flag.ContinueOnError] and one string flag, named "Tags", with default
    [""].  [tags] is the current value of the flag.  The rounds of
    [parseOne] are unfolded into the recursion: a round that sees a flag goes
    on with the remaining arguments, any other round ends the parse. *)
Fixpoint FlagSet_Parse (tags : string) (args : list string) : string + error :=
  match args with
  | [] => inl tags
  | s :: rest =>
      match s with
      | String "-"%char (String c1 s2) =>
          if Ascii.eqb c1 "-" && String.eqb s2 "" then inl tags
          else
            let name := if Ascii.eqb c1 "-" then s2 else String c1 s2 in
            if String.eqb name "" || HasPrefix name "-" || HasPrefix name "="
            then inr (FlagError ("bad flag syntax: " +:+ s))
            else
              let '(name, value) := cut_value name in
              if negb (String.eqb name "Tags") then
                if String.eqb name "help" || String.eqb name "h"
                then inr (FlagError "flag: help requested")
                else inr (FlagError ("flag provided but not defined: -" +:+ name))
              else
                match value with
                | Some v => FlagSet_Parse v rest
                | None =>
                    match rest with
                    | v :: rest' => FlagSet_Parse v rest'
                    | [] => inr (FlagError ("flag needs an argument: -" +:+ name))
                    end
                end
      | _ => inl tags
      end
  end.

(** [goflags] is the result of [os.LookupEnv("GOFLAGS")]; a [nil] slice is
    the empty list.  The test [tags == nil] of the source never holds, since
    [fs.String] returns a valid pointer. *)
Definition DefaultTags (goflags : option string) : list string :=
  match goflags with
  | None => []
  | Some f =>
      match FlagSet_Parse "" (Fields f) with
      | inr _ => []
      | inl tags => Split tags ","
      end
  end.

(* ===================================================================== *)
(** * [command.go]: GetSpecs                                               *)
(* ===================================================================== *)

Record PackageSpec (Package : Type) : Type := mkSpec {
  Dir : string;
  ImportPath : string;
  IsWildcard : bool;
  IsLocal : bool;
  OutputFile : string;
  Pkg : option Package
}.
Arguments mkSpec {Package}.
Arguments Dir {Package}.
Arguments ImportPath {Package}.
Arguments IsWildcard {Package}.
Arguments IsLocal {Package}.
Arguments OutputFile {Package}.
Arguments Pkg {Package}.

Definition cwdPathPrefix : string := "./".
Definition parentPathPrefix : string := "../".

Definition IsLocalPath (path : string) : bool :=
  HasPrefix path cwdPathPrefix || HasPrefix path parentPathPrefix
  || filepath_IsAbs path.

Definition ignoredDirs : list string := [".git"].

Definition IsIgnoredDir (dirname : string) : bool :=
  existsb (fun ignored => String.eqb ignored dirname) ignoredDirs.

(** An entry of a directory, as [ioutil.ReadDir] returns it. *)
Record FileInfo : Type := mkInfo {
  Name : string;
  IsDir : bool
}.

Section Specs.
Context {Package : Type}.

(** [ioutil.ReadDir]: the entries of a directory sorted by name, or [None]
    when the directory cannot be read. *)
Variable ReadDir : string -> option (list FileInfo).

Definition literalSpec (dir path : string) (isLocal : bool)
    : PackageSpec Package :=
  mkSpec dir path false isLocal "" None.

Definition wildcardSpec (path : string) : PackageSpec Package :=
  mkSpec path path true true "" None.

(** The inner loop over the entries of the directory [p]: the paths of the
    sub-directories that are kept, in the order of the entries. *)
Definition subPaths (p : string) (entries : list FileInfo) : list string :=
  omap (fun f =>
          if IsIgnoredDir (Name f) then None
          else if IsDir f then
            let subPath := filepath_Join p (Name f) in
            Some (if negb (IsLocalPath subPath)
                  then cwdPathPrefix +:+ subPath else subPath)
          else None)
       entries.

(** The loop over the queue.  Every round takes the front of the queue,
    appends the descriptors of its sub-directories to [expanded] and pushes
    them at the back.  [None] when the fuel runs out first. *)
Fixpoint walk (fuel : nat) (queue : list string)
    : option (list (PackageSpec Package)) :=
  match queue with
  | [] => Some []
  | p :: queue' =>
      match fuel with
      | O => None
      | S fuel' =>
          match ReadDir p with
          | None => walk fuel' queue'
          | Some entries =>
              let subs := subPaths p entries in
              match walk fuel' (queue' ++ subs)%list with
              | Some found => Some (map wildcardSpec subs ++ found)%list
              | None => None
              end
          end
      end
  end.

(** The descriptors one argument contributes. *)
Definition expand (fuel : nat) (path : string)
    : option (list (PackageSpec Package)) :=
  if negb (HasSuffix path "/...") then
    let isLocal := IsLocalPath path in
    Some [literalSpec (if isLocal then path else ".") path isLocal]
  else
    let trimmedPath := substring 0 (String.length path - 3) path in
    if negb (IsLocalPath trimmedPath) then
      Some [literalSpec "." path false]
    else
      match walk fuel [trimmedPath] with
      | Some found => Some (wildcardSpec trimmedPath :: found)
      | None => None
      end.

Fixpoint GetSpecs (fuel : nat) (paths : list string)
    : option (list (PackageSpec Package)) :=
  match paths with
  | [] => Some []
  | path :: paths' =>
      match expand fuel path, GetSpecs fuel paths' with
      | Some here, Some later => Some (here ++ later)%list
      | _, _ => None
      end
  end.
End Specs.

Close Scope string_scope.

(* ===================================================================== *)
(** * [output.go]: WriteOutput                                             *)
(* ===================================================================== *)

(** The options [WriteOutput] and its helpers read.  The template overrides
    and the repository settings are only passed on to the renderer and the
    loader. *)
Record CommandOptions : Type := mkOptions {
  Output : string;
  Header : text;
  HeaderFile : string;
  Footer : text;
  FooterFile : string;
  Format : string;
  Tags : list string;
  TemplateOverrides : gmap string string;
  TemplateFileOverrides : gmap string string;
  Verbosity : nat;
  IncludeUnexported : bool;
  Check : bool;
  Embed : bool;
  Version : bool
}.

Definition ResolveHeader (opts : CommandOptions) : IO (text + error) :=
  if negb (Nat.eqb (length (Header opts)) 0) then ret (inl (Header opts))
  else if negb (String.eqb (HeaderFile opts) "") then
    b <- os_ReadFile (HeaderFile opts) ;;
    match b with
    | inr err => ret (inr (Wrap "gomarkdoc: couldn't resolve Header file: " err))
    | inl b => ret (inl b)
    end
  else ret (inl []).

Definition ResolveFooter (opts : CommandOptions) : IO (text + error) :=
  if negb (Nat.eqb (length (Footer opts)) 0) then ret (inl (Footer opts))
  else if negb (String.eqb (FooterFile opts) "") then
    b <- os_ReadFile (FooterFile opts) ;;
    match b with
    | inr err => ret (inr (Wrap "gomarkdoc: couldn't resolve Footer file: " err))
    | inl b => ret (inl b)
    end
  else ret (inl []).

Section Output.
(** The documentation model and the renderer are external. *)
Context {Package : Type}.
Variable Renderer : Type.
(** [ResolveOverrides] followed by [gomarkdoc.NewRenderer]. *)
Variable NewRenderer : CommandOptions -> IO (Renderer + error).
(** [out.File(lang.NewFile(header, footer, pkgs))] *)
Variable Renderer_File :
  Renderer -> text -> text -> list Package -> text + error.

(** The first loop: [filePkgs[spec.OutputFile] = append(filePkgs[
    spec.OutputFile], spec.Pkg)] for every descriptor that has a model. *)
Definition addSpec (filePkgs : gmap string (list Package))
    (spec : PackageSpec Package) : gmap string (list Package) :=
  match Pkg spec with
  | None => filePkgs
  | Some pkg =>
      <[OutputFile spec := default [] (filePkgs !! OutputFile spec) ++ [pkg]]>
        filePkgs
  end.

Definition groupSpecs (specs : list (PackageSpec Package))
    : gmap string (list Package) :=
  fold_left addSpec specs ∅.

(** Go leaves the order in which [range] visits a map unspecified: any
    arrangement of the entries is a possible order of the second loop. *)
Definition range_order (filePkgs : gmap string (list Package))
    (order : list (string * list Package)) : Prop :=
  order ≡ₚ map_to_list filePkgs.

(** The body of the second loop for one destination. *)
Definition writeUnit (out : Renderer) (header footer : text)
    (opts : CommandOptions) (fileName : string) (pkgs : list Package)
    : IO (option error) :=
  match Renderer_File out header footer pkgs with
  | inr err => ret (Some err)
  | inl t =>
      t <- (if Embed opts && negb (String.eqb fileName "")
            then EmbedContents fileName t else ret t) ;;
      if String.eqb fileName "" then
        _ <- Fprint_Stdout t ;; ret None
      else if Check opts then
        CheckFile t fileName
      else
        written <- WriteFile fileName t ;;
        match written with
        | Some err =>
            ret (Some (Wrap ("failed to write Output file " +:+ fileName
                             +:+ ": ") err))
        | None => ret None
        end
  end.

Fixpoint writeUnits (out : Renderer) (header footer : text)
    (opts : CommandOptions) (order : list (string * list Package))
    : IO (option error) :=
  match order with
  | [] => ret None
  | (fileName, pkgs) :: order' =>
      r <- writeUnit out header footer opts fileName pkgs ;;
      match r with
      | Some err => ret (Some err)
      | None => writeUnits out header footer opts order'
      end
  end.

(** [WriteOutput] when the second loop visits the map in [order]. *)
Definition WriteOutput_in (order : list (string * list Package))
    (opts : CommandOptions) : IO (option error) :=
  out <- NewRenderer opts ;;
  match out with
  | inr err => ret (Some err)
  | inl out =>
      header <- ResolveHeader opts ;;
      match header with
      | inr err => ret (Some err)
      | inl header =>
          footer <- ResolveFooter opts ;;
          match footer with
          | inr err => ret (Some err)
          | inl footer => writeUnits out header footer opts order
          end
      end
  end.

(** The runs of [WriteOutput]: one for every order of the map. *)
Inductive WriteOutput (specs : list (PackageSpec Package))
    (opts : CommandOptions) (w : world) : option error * world -> Prop :=
| WriteOutput_run order :
    range_order (groupSpecs specs) order ->
    WriteOutput specs opts w (WriteOutput_in order opts w).
End Output.

(* ===================================================================== *)
(** * Notions used in the statements                                       *)
(* ===================================================================== *)

(** The models routed to the destination [d], in the order of the
    descriptors. *)
Definition pkgsFor {Package : Type} (d : string)
    (specs : list (PackageSpec Package)) : list Package :=
  omap (fun spec => if String.eqb (OutputFile spec) d then Pkg spec else None)
       specs.

(** The destinations of the descriptors that have a model, each at its first
    occurrence. *)
Fixpoint destinations {Package : Type} (seen : list string)
    (specs : list (PackageSpec Package)) : list string :=
  match specs with
  | [] => []
  | spec :: specs' =>
      match Pkg spec with
      | None => destinations seen specs'
      | Some _ =>
          if existsb (String.eqb (OutputFile spec)) seen
          then destinations seen specs'
          else OutputFile spec :: destinations (OutputFile spec :: seen) specs'
      end
  end.


Definition emptyWorld : world :=
  mkWorld ∅ (fun _ => None) (fun _ => None) [].

(** A tree for the scenario: [.git] has sub-directories of its own, [pkgB]
    also holds a source file, [inner] holds one file. *)
Definition scenarioDir (p : string) : option (list FileInfo) :=
  if String.eqb p "./pkgB/" then
    Some [mkInfo ".git" true; mkInfo "doc.go" false; mkInfo "inner" true]
  else if String.eqb p "./pkgB/inner" then Some [mkInfo "inner.go" false]
  else if String.eqb p "./pkgB/.git" then
    Some [mkInfo "hooks" true; mkInfo "objects" true]
  else None.

(** The inverse of the FNV prime modulo [2^128]. *)
Definition prime128_inv : Z := 0xb1041ad2562ff2ff2ff2ff2ff2ff2ff3%Z.

(** Two descriptors with different destinations. *)
Definition twoSpecs : list (PackageSpec nat) :=
  [mkSpec "./a" "./a" false true "a.md" (Some 1);
   mkSpec "./b" "./b" false true "b.md" (Some 2)].


(** ** Notions for the statements about merging *)

(** [strip p s]: [s] without its prefix [p], if it starts with [p]. *)
Fixpoint strip (p s : text) : option text :=
  match p with
  | [] => Some s
  | c :: p' =>
      match s with
      | c' :: s' => if Ascii.eqb c c' then strip p' s' else None
      | [] => None
      end
  end.

(** [occurs p s]: [p] occurs somewhere in [s]. *)
Fixpoint occurs (p s : text) : bool :=
  match strip p s with
  | Some _ => true
  | None =>
      match s with
      | [] => false
      | _ :: s' => occurs p s'
      end
  end.

(** The keyword the two patterns share. *)
Definition keyword : text := bytes "gomarkdoc:Embed".

(** The text names the keyword of the markers somewhere. *)
Definition mentions (s : text) : bool := occurs keyword s.

(** The last byte of the text is a line feed. *)
Fixpoint ends_nl (s : text) : bool :=
  match s with
  | [] => false
  | c :: s' =>
      match s' with
      | [] => is_nl c
      | _ :: _ => ends_nl s'
      end
  end.

(** The file holds nothing the two patterns match. *)
Definition noMarkers (data : text) : Prop :=
  find embedStandaloneRegex true data = None
  /\ find embedStartRegex true data = None.

Definition standaloneMarker : text := bytes "<!-- gomarkdoc:Embed -->".

(** A marked place of a document: the standalone marker, or a region from the
    start marker to the end marker around [body]. *)
Inductive block : Type :=
| Standalone
| Region (body : text).

Definition blockText (b : block) : text :=
  match b with
  | Standalone => standaloneMarker
  | Region body => startMarker ++ body ++ endMarker
  end.

(** The region [EmbedContents] writes for the text [t]. *)
Definition wrapped (t : text) : block := Region ([nl; nl] ++ t ++ [nl; nl]).

(** A document after its leading text: blocks, each followed by a stretch of
    ordinary text. *)
Fixpoint doc (items : list (block * text)) : text :=
  match items with
  | [] => []
  | (b, seg) :: items' => blockText b ++ seg ++ doc items'
  end.

Definition block_ok (b : block) : bool :=
  match b with
  | Standalone => true
  | Region body => negb (mentions body)
  end.

(** Every block stands on lines of its own, between texts that do not name
    the keyword: the text after a block is empty at the end of the file or
    begins with a line feed, and the text before a block ends with a line
    feed. *)
Fixpoint items_ok (items : list (block * text)) : bool :=
  match items with
  | [] => true
  | (b, seg) :: items' =>
      block_ok b && negb (mentions seg) && at_eol seg
      && match items' with
         | [] => true
         | _ :: _ => ends_nl seg
         end
      && items_ok items'
  end.

Definition lead_ok (lead : text) : bool :=
  negb (mentions lead)
  && match lead with
     | [] => true
     | _ :: _ => ends_nl lead
     end.

(** Every block replaced by the region written for [t]. *)
Definition spliced (t : text) (items : list (block * text))
    : list (block * text) :=
  map (fun item => (wrapped t, snd item)) items.

(** ** The two patterns as functions on the text *)

(** [skip k s]: [s] after its longest prefix of bytes of the class [k]. *)
Fixpoint skip (k : cclass) (s : text) : text :=
  match s with
  | c :: s' => if in_class k c then skip k s' else s
  | [] => []
  end.

(** [hskip s]: [s] after its leading white space other than line feeds. *)
Fixpoint hskip (s : text) : text :=
  match s with
  | c :: s' => if in_class CWhite c && negb (is_nl c) then hskip s' else s
  | [] => []
  end.

(** The end of both patterns, [\s*?$]: white space up to the end of the
    line. *)
Definition eolEnd (s : text) : option (bool * text) :=
  if at_eol (hskip s) then Some (false, hskip s) else None.

(** A marker comment: the opening of a comment, white space, the keyword [kw],
    white space, the closing of the comment, and then [cont]. *)
Definition marker (kw : text) (cont : text -> option (bool * text))
    (s : text) : option (bool * text) :=
  match strip (bytes "<!--") s with
  | Some s1 =>
      match strip kw (skip CWhite s1) with
      | Some s2 =>
          match strip (bytes "-->") (skip CWhite s2) with
          | Some s3 => cont s3
          | None => None
          end
      | None => None
      end
  | None => None
  end.

(** The beginning of both patterns, [^ *]. *)
Definition front (f : text -> option (bool * text)) (bol : bool) (s : text)
    : option (bool * text) :=
  if bol then f (skip CSpace s) else None.

(** The first place at or after the current position where [f] succeeds:
    [.*?] before [f]. *)
Fixpoint scanFor (f : text -> option (bool * text)) (s : text)
    : option (bool * text) :=
  match f s with
  | Some e => Some e
  | None =>
      match s with
      | [] => None
      | _ :: s' => scanFor f s'
      end
  end.

Definition standaloneFn : bool -> text -> option (bool * text) :=
  front (marker keyword eolEnd).

Definition endFn : text -> option (bool * text) :=
  marker (keyword ++ bytes ":end") eolEnd.

Definition startFn : bool -> text -> option (bool * text) :=
  front (marker (keyword ++ bytes ":start") (scanFor endFn)).

(** The pattern of a marker comment with the keyword [kw], followed by [r]. *)
Definition markerRe (kw : text) (r : regex) : regex :=
  lit "<!--" ++ [Star true CWhite] ++ map Lit kw ++ [Star true CWhite]
  ++ lit "-->" ++ r.

(** The line flag after the literal bytes [l]. *)
Definition after_lits (l : text) (bol : bool) : bool :=
  fold_left (fun _ c => is_nl c) l bol.

(** The text after a stretch of ordinary text is empty or begins a marker. *)
Definition boundary (tail : text) : bool :=
  match tail with
  | [] => true
  | c :: _ => Ascii.eqb c "<"
  end.

(** [find] for a matcher given as a function. *)
Fixpoint findWith (m : bool -> text -> option (bool * text)) (bol : bool)
    (s : text) : option found :=
  match m bol s with
  | Some (bol', rest) => Some (mkFound [] bol' rest)
  | None =>
      match s with
      | [] => None
      | c :: s' => option_map (further c) (findWith m (is_nl c) s')
      end
  end.

Definition prepend (pre : text) (f : found) : found :=
  mkFound (pre ++ skipped f) (after_bol f) (after f).

Definition isStandalone (b : block) : bool :=
  match b with
  | Standalone => true
  | Region _ => false
  end.

Definition isRegion (b : block) : bool := negb (isStandalone b).

(** The blocks a pass replaces, replaced by the region written for [t]. *)
Definition rewriteBlocks (hit : block -> bool) (t : text)
    (items : list (block * text)) : list (block * text) :=
  map (fun item => (if hit (fst item) then wrapped t else fst item, snd item))
      items.

Fixpoint countBlocks (hit : block -> bool) (items : list (block * text))
    : nat :=
  match items with
  | [] => O
  | item :: items' =>
      (if hit (fst item) then 1 else 0) + countBlocks hit items'
  end.

(** A world whose only file is [path], holding [data]. *)
Definition oneFile (path : string) (data : text) : world :=
  store path data emptyWorld.

(** A document with a title, the standalone marker, some text, a region and
    a last line. *)
Definition sampleLead : text := bytes "# Title" ++ [nl].

Definition sampleItems : list (block * text) :=
  [(Standalone, [nl] ++ bytes "middle" ++ [nl]);
   (Region (bytes "old"), [nl] ++ bytes "end")].

(** [f] never returns more text than it was given. *)
Definition shrinks (f : text -> option (bool * text)) : Prop :=
  forall s b rest, f s = Some (b, rest) -> length rest <= length s.


(* ===================================================================== *)
(** * Further notions for the statements                                   *)
(* ===================================================================== *)

(** The effects that change the file system. *)
Definition is_write (ev : event) : bool :=
  match ev with
  | EvMkdirAll _ | EvWriteFile _ _ => true
  | _ => false
  end.

(** [w'] is [w] after effects that change no file. *)
Definition only_reads (w w' : world) : Prop :=
  files w' = files w
  /\ exists evs,
       effects w' = effects w ++ evs
       /\ Forall (fun ev => is_write ev = false) evs.

(** The file system lets [fileName] be written. *)
Definition writable (w : world) (fileName : string) : Prop :=
  mkdir_errno w (filepath_Dir fileName) = None
  /\ write_errno w fileName = None.

(** A world in which no folder can be made. *)
Definition noFolderWorld : world :=
  mkWorld ∅ (fun _ => Some EACCES) (fun _ => None) [].

(** Options for the three kinds of run: replace, verify, merge. *)
Definition baseOptions (check embed : bool) : CommandOptions :=
  mkOptions "{{.Dir}}/README.md" [] "" [] "" "github" [] ∅ ∅ 0 false
            check embed false.

(** A renderer that renders every unit as the text "doc". *)
Definition docRenderer (_ : unit) (_ _ : text) (_ : list unit) : text + error :=
  inl (bytes "doc").

(** What holds of every descriptor [GetSpecs] makes: the flag [IsLocal] says
    whether [Dir] is a local path; a local descriptor is named by its
    directory and any other has the directory "."; a wildcard descriptor is
    local; no destination and no model are set yet. *)
Definition spec_wf {Package : Type} (spec : PackageSpec Package) : Prop :=
  IsLocal spec = IsLocalPath (Dir spec)
  /\ (IsLocal spec = true -> Dir spec = ImportPath spec)
  /\ (IsLocal spec = false -> Dir spec = "."%string)
  /\ (IsWildcard spec = true -> IsLocal spec = true)
  /\ OutputFile spec = ""%string
  /\ Pkg spec = None.

(** The descriptor of an argument that is not recursive. *)
Definition namedSpec {Package : Type} (path : string) : PackageSpec Package :=
  mkSpec (if IsLocalPath path then path else "."%string) path false
         (IsLocalPath path) "" None.

(** The entries of a directory that the traversal follows. *)
Definition followed (entries : list FileInfo) : list string :=
  omap (fun f =>
          if IsIgnoredDir (Name f) then None
          else if IsDir f then Some (Name f) else None)
       entries.

(** A directory reader for which nothing can be read. *)
Definition unreadable (_ : string) : option (list FileInfo) := None.

(** The tree of [scenarioDir] with other plain files. *)
Definition scenarioDir' (p : string) : option (list FileInfo) :=
  if String.eqb p "./pkgB/" then
    Some [mkInfo ".git" true; mkInfo "inner" true; mkInfo "z.go" false]
  else if String.eqb p "./pkgB/inner" then Some []
  else if String.eqb p "./pkgB/.git" then
    Some [mkInfo "HEAD" false; mkInfo "hooks" true; mkInfo "objects" true]
  else None.


(* ===================================================================== *)
(** * [command.go]: ResolveOutput, GetBuildPackage, LoadPackages, RunCommand *)
(* ===================================================================== *)

Section Running.
Context {Package : Type}.

(** The template engine, the package loader of [go/build] and the model
    builder of [lang] are external. *)
Variable Template : Type.
(** [template.New("Output").Parse(text)] *)
Variable ParseTemplate : string -> Template + error.
(** [outputTmpl.Execute(&outputFile, spec)] and [outputFile.String()] *)
Variable Execute : Template -> PackageSpec Package -> string + error.

Variable BuildPackage : Type.
(** [ctx.ImportDir(path, build.ImportComment)] with [ctx.BuildTags = tags] *)
Variable ImportDir : string -> list string -> BuildPackage + error.
(** [ctx.Import(path, wd, build.ImportComment)] with [ctx.BuildTags = tags] *)
Variable Import : string -> string -> list string -> BuildPackage + error.
(** [os.Getwd()] *)
Variable Getwd : string + error.
(** [lang.NewPackageFromBuild(log, buildPkg, pkgOpts...)], the options being
    those [LoadPackages] derives from [opts]. *)
Variable NewPackageFromBuild : BuildPackage -> CommandOptions -> Package + error.

Variable ReadDir : string -> option (list FileInfo).
Variable Renderer : Type.
Variable NewRenderer : CommandOptions -> IO (Renderer + error).
Variable Renderer_File :
  Renderer -> text -> text -> list Package -> text + error.

(** [spec.OutputFile = file] *)
Definition setOutputFile (spec : PackageSpec Package) (file : string)
    : PackageSpec Package :=
  mkSpec (Dir spec) (ImportPath spec) (IsWildcard spec) (IsLocal spec) file
         (Pkg spec).

(** [spec.Pkg = pkg] *)
Definition setPkg (spec : PackageSpec Package) (pkg : Package)
    : PackageSpec Package :=
  mkSpec (Dir spec) (ImportPath spec) (IsWildcard spec) (IsLocal spec)
         (OutputFile spec) (Some pkg).

(** The descriptors are updated in place; the first component is the list as
    the loop leaves it, the second the error returned. *)
Fixpoint ResolveOutput (specs : list (PackageSpec Package))
    (outputTmpl : Template) : list (PackageSpec Package) * option error :=
  match specs with
  | [] => ([], None)
  | spec :: specs' =>
      match Execute outputTmpl spec with
      | inr err => (spec :: specs', Some err)
      | inl outputStr =>
          let spec' :=
            if String.eqb outputStr "" then setOutputFile spec ""
            else setOutputFile spec (filepath_Clean outputStr) in
          let '(rest, err) := ResolveOutput specs' outputTmpl in
          (spec' :: rest, err)
      end
  end.

Definition GetBuildPackage (path : string) (tags : list string)
    : BuildPackage + error :=
  if IsLocalPath path then
    match ImportDir path tags with
    | inr _ =>
        inr (ErrorString ("gomarkdoc: invalid package in directory: "
                          +:+ path))
    | inl pkg => inl pkg
    end
  else
    match Getwd with
    | inr err => inr err
    | inl wd =>
        match Import path wd tags with
        | inr _ =>
            inr (ErrorString ("gomarkdoc: invalid package at import path: "
                              +:+ path))
        | inl pkg => inl pkg
        end
    end.

Fixpoint LoadPackages (specs : list (PackageSpec Package))
    (opts : CommandOptions) : list (PackageSpec Package) * option error :=
  match specs with
  | [] => ([], None)
  | spec :: specs' =>
      match GetBuildPackage (ImportPath spec) (Tags opts) with
      | inr err =>
          if IsWildcard spec then
            let '(rest, err') := LoadPackages specs' opts in
            (spec :: rest, err')
          else (spec :: specs', Some err)
      | inl buildPkg =>
          match NewPackageFromBuild buildPkg opts with
          | inr err => (spec :: specs', Some err)
          | inl pkg =>
              let '(rest, err') := LoadPackages specs' opts in
              (setPkg spec pkg :: rest, err')
          end
      end
  end.

(** [RunCommand] when the traversal has [fuel] rounds and the last loop of
    [WriteOutput] visits the map in [order]; [None] when the fuel runs out. *)
Definition RunCommand_in (fuel : nat) (order : list (string * list Package))
    (paths : list string) (opts : CommandOptions) (w : world)
    : option (option error * world) :=
  match ParseTemplate (Output opts) with
  | inr err =>
      Some (Some (Wrap "gomarkdoc: invalid Output template: " err), w)
  | inl outputTmpl =>
      match GetSpecs ReadDir fuel paths with
      | None => None
      | Some specs =>
          match ResolveOutput specs outputTmpl with
          | (_, Some err) => Some (Some err, w)
          | (specs, None) =>
              match LoadPackages specs opts with
              | (_, Some err) => Some (Some err, w)
              | (specs, None) =>
                  Some (WriteOutput_in Renderer NewRenderer Renderer_File
                          order opts w)
              end
          end
      end
  end.

End Running.

(** What [LoadPackages] accepts of a descriptor: its package loads and its
    model builds, or it is a wildcard whose package does not load. *)
Definition loadable {Package BuildPackage : Type}
    (GetBuild : string -> list string -> BuildPackage + error)
    (NewPackageFromBuild : BuildPackage -> CommandOptions -> Package + error)
    (opts : CommandOptions) (spec : PackageSpec Package) : Prop :=
  match GetBuild (ImportPath spec) (Tags opts) with
  | inr _ => IsWildcard spec = true
  | inl buildPkg => exists pkg, NewPackageFromBuild buildPkg opts = inl pkg
  end.

(** External collaborators for the examples: a template that renders the
    directory of the descriptor followed by "/README.md", a loader that finds
    no package anywhere, a renderer that renders "doc". *)
Definition dirTemplate (_ : unit) (spec : PackageSpec unit) : string + error :=
  inl (Dir spec +:+ "/README.md")%string.

Definition noPackage (_ : string) (_ : list string) : unit + error :=
  inr (ErrorString "no Go files").

Definition noPackageAt (_ _ : string) (_ : list string) : unit + error :=
  inr (ErrorString "cannot find package").

Definition unitRenderer (_ : CommandOptions) : IO (unit + error) :=
  ret (inl tt).

(* ===================================================================== *)
(** * [command.go]: ResolveOverrides                                       *)
(* ===================================================================== *)

(** The formats of the package [format] and the renderer options of the
    package [gomarkdoc], as data. *)
Inductive format_Format : Type :=
| GitHubFlavoredMarkdown
| AzureDevOpsMarkdown
| PlainMarkdown.

Inductive RendererOption : Type :=
| WithTemplateOverride (name : string) (tmpl : text)
| WithFormat (f : format_Format).

(** The second loop, over the file overrides in the order [fileOrder]. *)
Fixpoint fileOverrides (opts : CommandOptions)
    (fileOrder : list (string * string)) (overrides : list RendererOption)
    : IO (list RendererOption + error) :=
  match fileOrder with
  | [] => ret (inl overrides)
  | (name, f) :: fileOrder' =>
      match TemplateOverrides opts !! name with
      | Some _ => fileOverrides opts fileOrder' overrides
      | None =>
          b <- os_ReadFile f ;;
          match b with
          | inr err =>
              ret (inr (Wrap ("gomarkdoc: couldn't resolve template for "
                              +:+ name +:+ ": ") err))
          | inl b =>
              fileOverrides opts fileOrder'
                (overrides ++ [WithTemplateOverride name b])
          end
      end
  end.

(** [ResolveOverrides] when its two loops visit the maps of the content
    overrides and of the file overrides in the orders [contentOrder] and
    [fileOrder]. *)
Definition ResolveOverrides_in (contentOrder fileOrder : list (string * string))
    (opts : CommandOptions) : IO (list RendererOption + error) :=
  let overrides :=
    map (fun entry => WithTemplateOverride (fst entry) (bytes (snd entry)))
        contentOrder in
  r <- fileOverrides opts fileOrder overrides ;;
  match r with
  | inr err => ret (inr err)
  | inl overrides =>
      if String.eqb (Format opts) "github" then
        ret (inl (overrides ++ [WithFormat GitHubFlavoredMarkdown]))
      else if String.eqb (Format opts) "azure-devops" then
        ret (inl (overrides ++ [WithFormat AzureDevOpsMarkdown]))
      else if String.eqb (Format opts) "plain" then
        ret (inl (overrides ++ [WithFormat PlainMarkdown]))
      else
        ret (inr (ErrorString ("gomarkdoc: invalid Format: "
                               +:+ Format opts)))
  end.

(** Options with a content override and a file override for the template
    "doc" and a file override for the template "func". *)
Definition overrideOptions : CommandOptions :=
  mkOptions "" [] "" [] "" "plain" []
            {["doc"%string := "inline"%string]}
            (<["func"%string := "func.tmpl"%string]>
               {["doc"%string := "doc.tmpl"%string]})
            0 false false false false.

(** Options that name a header file. *)
Definition headerOptions : CommandOptions :=
  mkOptions "" [] "header.md" [] "" "github" [] ∅ ∅ 0 false false false false.

(** External collaborators for the examples. *)
Definition parseAny (_ : string) : unit + error := inl tt.

Definition buildUnit (_ : unit) (_ : CommandOptions) : unit + error := inl tt.

(** The value of the option [Format] that selects a format. *)
Definition formatName (f : format_Format) : string :=
  match f with
  | GitHubFlavoredMarkdown => "github"
  | AzureDevOpsMarkdown => "azure-devops"
  | PlainMarkdown => "plain"
  end.

(** A world that holds the two template files of [overrideOptions]. *)
Definition templateWorld : world :=
  store "func.tmpl" (bytes "F") (store "doc.tmpl" (bytes "D") emptyWorld).

(* ===================================================================== *)
(** * The two patterns as functions on the text                            *)
(* ===================================================================== *)

Section Matcher.
Implicit Types (r : regex) (s : text) (b bol : bool) (l p : text).

(** The two patterns, compiled. *)
Lemma embedStandaloneRegex_atoms :
  embedStandaloneRegex
  = [Bol; Star true CSpace] ++ lit "<!--" ++ [Star true CWhite]
    ++ lit "gomarkdoc:Embed" ++ [Star true CWhite] ++ lit "-->"
    ++ [Star false CWhite; Eol].
Proof. reflexivity. Qed.

Lemma embedStartRegex_atoms :
  embedStartRegex
  = [Bol; Star true CSpace] ++ lit "<!--" ++ [Star true CWhite]
    ++ lit "gomarkdoc:Embed:start" ++ [Star true CWhite] ++ lit "-->"
    ++ [Star false CAny]
    ++ lit "<!--" ++ [Star true CWhite]
    ++ lit "gomarkdoc:Embed:end" ++ [Star true CWhite] ++ lit "-->"
    ++ [Star false CWhite; Eol].
Proof. reflexivity. Qed.

Lemma run_star (g : bool) (k : cclass) r b s :
  run (Star g k :: r) b s = star g k (run r) b s.
Proof. reflexivity. Qed.

Lemma run_lits l r b s :
  run (map Lit l ++ r) b s
  = match strip l s with
    | Some s' => run r (after_lits l b) s'
    | None => None
    end.
Proof.
  revert b s. induction l as [| c l IH]; intros b s; [reflexivity |].
  cbn [map app run strip]. destruct s as [| c' s]; [reflexivity |].
  destruct (Ascii.eqb_spec c c') as [<- | _]; [| reflexivity].
  rewrite IH. reflexivity.
Qed.

(** A greedy repetition in front of a byte outside its class never gives
    anything back. *)
Lemma star_greedy_lit (k : cclass) (c : ascii) r b s :
  in_class k c = false ->
  star true k (run (Lit c :: r)) b s = run (Lit c :: r) false (skip k s).
Proof.
  intros Hout. revert b. induction s as [| c' s IH]; intros b; [reflexivity |].
  cbn [star skip]. destruct (in_class k c') eqn:Hin; [| reflexivity].
  rewrite IH. destruct (run (Lit c :: r) false (skip k s)) as [e |] eqn:Hrun;
    [reflexivity |].
  cbn [run]. destruct (Ascii.eqb_spec c c') as [-> | _]; [| reflexivity].
  congruence.
Qed.

(** The reluctant white space before the end of a line. *)
Lemma star_lazy_eol s :
  star false CWhite (run [Eol]) false s = eolEnd s.
Proof.
  unfold eolEnd. induction s as [| c s IH]; [reflexivity |].
  cbn [star hskip run at_eol].
  destruct (in_class CWhite c) eqn:Hin; cbn [andb].
  - destruct (is_nl c) eqn:Hnl; cbn [negb at_eol]; [now rewrite Hnl |].
    replace (is_nl c) with false by (symmetry; exact Hnl). exact IH.
  - destruct (is_nl c) eqn:Hnl; cbn [at_eol]; rewrite Hnl; [| reflexivity].
    unfold is_nl in Hnl. apply Ascii.eqb_eq in Hnl. subst c. discriminate Hin.
Qed.

(** A reluctant [.*?] in front of a pattern that begins with a byte. *)
Lemma star_lazy_any (c : ascii) r b s :
  star false CAny (run (Lit c :: r)) b s = scanFor (run (Lit c :: r) false) s.
Proof.
  revert b. induction s as [| c' s IH]; intros b; [reflexivity |].
  cbn [star scanFor in_class]. rewrite IH. reflexivity.
Qed.

Lemma scanFor_ext (f g : text -> option (bool * text)) s :
  (forall s', f s' = g s') -> scanFor f s = scanFor g s.
Proof.
  intros Hfg. induction s as [| c s IH]; cbn [scanFor]; rewrite Hfg;
    [reflexivity |].
  now rewrite IH.
Qed.

Lemma run_markerRe (kw : text) r (cont : text -> option (bool * text)) b s :
  (forall s', run r false s' = cont s') ->
  (exists c kw', kw = c :: kw' /\ in_class CWhite c = false) ->
  run (markerRe kw r) b s = marker kw cont s.
Proof.
  intros Hcont (c & kw' & -> & Hc). unfold markerRe, marker, lit.
  rewrite run_lits. destruct (strip (bytes "<!--") s) as [s1 |]; [| reflexivity].
  cbn [app map]. rewrite run_star, star_greedy_lit by exact Hc.
  change (Lit c :: map Lit kw' ++ Star true CWhite :: map Lit (bytes "-->") ++ r)
    with (map Lit (c :: kw') ++ Star true CWhite :: map Lit (bytes "-->") ++ r).
  rewrite run_lits.
  destruct (strip (c :: kw') (skip CWhite s1)) as [s2 |]; [| reflexivity].
  rewrite run_star.
  change (map Lit (bytes "-->") ++ r)
    with (Lit "-"%char :: map Lit (bytes "->") ++ r).
  rewrite star_greedy_lit by reflexivity.
  change (Lit "-"%char :: map Lit (bytes "->") ++ r)
    with (map Lit (bytes "-->") ++ r).
  rewrite run_lits.
  destruct (strip (bytes "-->") (skip CWhite s2)) as [s3 |]; [| reflexivity].
  apply Hcont.
Qed.

Lemma run_front (c : ascii) r (f : text -> option (bool * text)) b s :
  (forall s', run (Lit c :: r) false s' = f s') ->
  in_class CSpace c = false ->
  run (Bol :: Star true CSpace :: Lit c :: r) b s = front f b s.
Proof.
  intros Hf Hc. unfold front.
  change (run (Bol :: Star true CSpace :: Lit c :: r) b s)
    with (if b then run (Star true CSpace :: Lit c :: r) b s else None).
  destruct b; [| reflexivity].
  rewrite run_star, star_greedy_lit by exact Hc. apply Hf.
Qed.

Lemma run_end b s :
  run (markerRe (keyword ++ bytes ":end") [Star false CWhite; Eol]) b s
  = endFn s.
Proof.
  apply run_markerRe.
  - intros s'. rewrite run_star. apply star_lazy_eol.
  - eexists _, _. split; reflexivity.
Qed.

Lemma run_standalone b s : run embedStandaloneRegex b s = standaloneFn b s.
Proof.
  change embedStandaloneRegex
    with (Bol :: Star true CSpace
          :: markerRe keyword [Star false CWhite; Eol]).
  apply run_front; [| reflexivity].
  intros s'. apply run_markerRe.
  - intros s''. rewrite run_star. apply star_lazy_eol.
  - eexists _, _. split; reflexivity.
Qed.

Lemma run_start b s : run embedStartRegex b s = startFn b s.
Proof.
  change embedStartRegex
    with (Bol :: Star true CSpace
          :: markerRe (keyword ++ bytes ":start")
               (Star false CAny
                :: markerRe (keyword ++ bytes ":end")
                     [Star false CWhite; Eol])).
  apply run_front; [| reflexivity].
  intros s'. apply run_markerRe.
  - intros s''. rewrite run_star.
    change (markerRe (keyword ++ bytes ":end") [Star false CWhite; Eol])
      with (Lit "<"%char
            :: tl (markerRe (keyword ++ bytes ":end")
                     [Star false CWhite; Eol])).
    rewrite star_lazy_any. apply scanFor_ext. intros s3.
    apply (run_end false).
  - eexists _, _. split; reflexivity.
Qed.
End Matcher.

(* ===================================================================== *)
(** * Prefixes, occurrences and skipped classes                            *)
(* ===================================================================== *)

Section Texts.
Implicit Types (s p l Y tail : text) (k : cclass).

Lemma strip_eq p s s' : strip p s = Some s' -> s = p ++ s'.
Proof.
  revert s. induction p as [| c p IH]; intros s Hs.
  - now injection Hs as ->.
  - destruct s as [| c' s]; [discriminate |]. cbn [strip] in Hs.
    destruct (Ascii.eqb_spec c c') as [<- | _]; [| discriminate].
    cbn [app]. f_equal. now apply IH.
Qed.

Lemma strip_pre p s : strip p (p ++ s) = Some s.
Proof.
  induction p as [| c p IH]; [reflexivity |].
  cbn [app strip]. now rewrite Ascii.eqb_refl.
Qed.

(** A prefix found in [Y ++ tail] lies within [Y], or runs over the end of
    [Y] into [tail]. *)
Lemma strip_app p Y tail r :
  strip p (Y ++ tail) = Some r ->
  (exists Y', strip p Y = Some Y' /\ r = Y' ++ tail)
  \/ (exists p2, strip Y p = Some p2 /\ p2 <> [] /\ strip p2 tail = Some r).
Proof.
  revert Y. induction p as [| c p IH]; intros Y Hs.
  - left. exists Y. split; [reflexivity |]. now injection Hs as <-.
  - destruct Y as [| y Y].
    + right. exists (c :: p). split; [reflexivity |]. split; [discriminate |].
      exact Hs.
    + cbn [app strip] in Hs |- *.
      destruct (Ascii.eqb_spec c y) as [<- | _]; [| discriminate].
      rewrite Ascii.eqb_refl. now apply IH.
Qed.

Lemma strip_head p tail r :
  strip p tail = Some r -> p <> [] ->
  exists c p' t, p = c :: p' /\ tail = c :: t.
Proof.
  intros Hs Hne. destruct p as [| c p]; [now elim Hne |].
  destruct tail as [| c' t]; [discriminate |]. cbn [strip] in Hs.
  destruct (Ascii.eqb_spec c c') as [<- | _]; [| discriminate].
  now exists c, p, t.
Qed.

Lemma boundary_inv tail :
  boundary tail = true -> tail = [] \/ exists t, tail = "<"%char :: t.
Proof.
  destruct tail as [| c t]; [now left |]. cbn [boundary]. intros Hc.
  apply Ascii.eqb_eq in Hc. subst c. right. now exists t.
Qed.

(** Past the end of [Y] a prefix can only run into a [tail] whose first byte
    it holds. *)
Lemma strip_over p Y tail p2 r :
  strip Y p = Some p2 -> p2 <> [] -> strip p2 tail = Some r ->
  boundary tail = true -> In "<"%char p2.
Proof.
  intros _ Hne Hs Hb.
  destruct (strip_head _ _ _ Hs Hne) as (c & p' & t & -> & ->).
  cbn [boundary] in Hb. apply Ascii.eqb_eq in Hb. subst c. now left.
Qed.

Lemma occurs_strip p s s' : strip p s = Some s' -> occurs p s = true.
Proof. intros Hs. destruct s; cbn [occurs]; now rewrite Hs. Qed.

Lemma occurs_tail p (c : ascii) s : occurs p (c :: s) = false -> occurs p s = false.
Proof.
  cbn [occurs]. destruct (strip p (c :: s)); [discriminate | auto].
Qed.

Lemma occurs_suffix p (pre s : text) :
  occurs p (pre ++ s) = false -> occurs p s = false.
Proof.
  induction pre as [| c pre IH]; [auto |].
  intros Hocc. apply IH. now apply occurs_tail in Hocc.
Qed.

Lemma skip_suffix k s : exists pre, s = pre ++ skip k s.
Proof.
  induction s as [| c s [pre IH]]; [now exists [] |].
  cbn [skip]. destruct (in_class k c).
  - exists (c :: pre). cbn [app]. now f_equal.
  - now exists [].
Qed.

Lemma skip_app k Y tail :
  skip k (Y ++ tail)
  = match skip k Y with
    | [] => skip k tail
    | y :: Y' => (y :: Y') ++ tail
    end.
Proof.
  induction Y as [| c Y IH]; [reflexivity |].
  cbn [app skip]. destruct (in_class k c); [exact IH | reflexivity].
Qed.

Lemma skip_boundary k tail :
  boundary tail = true -> in_class k "<" = false -> skip k tail = tail.
Proof.
  intros Hb Hk. destruct (boundary_inv _ Hb) as [-> | [t ->]]; [reflexivity |].
  cbn [skip]. now rewrite Hk.
Qed.

Lemma mentions_suffix (pre s : text) :
  mentions (pre ++ s) = false -> mentions s = false.
Proof. apply occurs_suffix. Qed.

Lemma mentions_skip k s : mentions s = false -> mentions (skip k s) = false.
Proof.
  intros Hs. destruct (skip_suffix k s) as [pre Hpre].
  rewrite Hpre in Hs. now apply mentions_suffix in Hs.
Qed.

Lemma ends_nl_tail (c : ascii) (y : ascii) Y :
  ends_nl (c :: y :: Y) = ends_nl (y :: Y).
Proof. reflexivity. Qed.

Lemma ends_nl_skip Y : ends_nl Y = true -> skip CSpace Y <> [].
Proof.
  induction Y as [| c Y IH]; [discriminate |].
  intros Hend. cbn [skip]. destruct (in_class CSpace c) eqn:Hc; [| discriminate].
  destruct Y as [| y Y].
  - cbn [ends_nl] in Hend. unfold is_nl in Hend. apply Ascii.eqb_eq in Hend.
    subst c. discriminate Hc.
  - apply IH. exact Hend.
Qed.

Lemma after_lits_ends_nl Y b : ends_nl Y = true -> after_lits Y b = true.
Proof.
  revert b. induction Y as [| c Y IH]; intros b; [discriminate |].
  intros Hend. unfold after_lits. cbn [fold_left].
  destruct Y as [| y Y]; [exact Hend |].
  apply (IH (is_nl c)). exact Hend.
Qed.
End Texts.

(* ===================================================================== *)
(** * Where the patterns cannot match                                      *)
(* ===================================================================== *)

Section Failing.
Implicit Types (s Y tail kw : text) (cont : text -> option (bool * text)).

(** A marker comment cannot begin inside a text that does not name the
    keyword, when that text is followed by nothing or by a marker. *)
Lemma marker_free_fails kw cont Y tail :
  (exists sfx, strip keyword kw = Some sfx) ->
  ~ In "<"%char kw ->
  mentions Y = false -> Y <> [] -> boundary tail = true ->
  marker kw cont (Y ++ tail) = None.
Proof.
  intros [sfx Hkw] Hlt HY Hne Hb. unfold marker.
  destruct (strip (bytes "<!--") (Y ++ tail)) as [s1 |] eqn:H1; [| reflexivity].
  apply strip_app in H1 as [(Y1 & HY1 & ->) | (p2 & Hp2 & Hne2 & Ht)].
  2:{ exfalso. pose proof (strip_over _ _ _ _ _ Hp2 Hne2 Ht Hb) as Hin.
      destruct Y as [| y Y]; [now elim Hne |].
      cbn [strip bytes list_ascii_of_string] in Hp2.
      destruct (Ascii.eqb y "<"); [| discriminate].
      apply strip_eq in Hp2.
      assert (Hin' : In "<"%char (Y ++ p2)) by (apply in_or_app; now right).
      rewrite <- Hp2 in Hin'. cbn in Hin'.
      intuition discriminate. }
  apply strip_eq in HY1. rewrite HY1 in HY. apply mentions_suffix in HY.
  apply (mentions_skip CWhite) in HY. rewrite skip_app.
  destruct (skip CWhite Y1) as [| y2 Y2] eqn:Hsk.
  - rewrite skip_boundary by (exact Hb || reflexivity).
    apply strip_eq in Hkw. subst kw.
    destruct (boundary_inv _ Hb) as [-> | [t ->]]; reflexivity.
  - destruct (strip kw ((y2 :: Y2) ++ tail)) as [s2 |] eqn:H2; [| reflexivity].
    exfalso.
    apply strip_app in H2 as [(Y3 & HY3 & ->) | (p2 & Hp2 & Hne2 & Ht)].
    + apply strip_eq in HY3, Hkw. rewrite HY3, Hkw, <- app_assoc in HY.
      unfold mentions in HY.
      now rewrite (occurs_strip _ _ _ (strip_pre keyword _)) in HY.
    + pose proof (strip_over _ _ _ _ _ Hp2 Hne2 Ht Hb) as Hin.
      apply strip_eq in Hp2. apply Hlt. rewrite Hp2.
      apply in_or_app. now right.
Qed.
End Failing.

(* ===================================================================== *)
(** * Searching past text that cannot match                                *)
(* ===================================================================== *)

Section Finding.
Variable m : bool -> text -> option (bool * text).
Implicit Types (s Y tail pre : text) (b : bool).

Lemma find_findWith (r : regex) :
  (forall b s, run r b s = m b s) ->
  forall b s, find r b s = findWith m b s.
Proof.
  intros Hm b s. revert b. induction s as [| c s IH]; intros b;
    cbn [find findWith]; rewrite Hm; [reflexivity |].
  now rewrite IH.
Qed.

Lemma prepend_nil (o : option found) : option_map (prepend []) o = o.
Proof. destruct o as [[sk ab af] |]; reflexivity. Qed.

Lemma further_prepend (c : ascii) pre (o : option found) :
  option_map (further c) (option_map (prepend pre) o)
  = option_map (prepend (c :: pre)) o.
Proof. destruct o as [[sk ab af] |]; reflexivity. Qed.

Lemma prepend_prepend pre1 pre2 (o : option found) :
  option_map (prepend pre1) (option_map (prepend pre2) o)
  = option_map (prepend (pre1 ++ pre2)) o.
Proof.
  destruct o as [[sk ab af] |]; [| reflexivity].
  unfold prepend. cbn. now rewrite app_assoc.
Qed.

(** If the matcher fails at every position of [Y], the search goes on
    after [Y]. *)
Lemma findWith_skip Y tail b :
  (forall pre c Y',
     Y = pre ++ c :: Y' -> m (after_lits pre b) (c :: Y' ++ tail) = None) ->
  findWith m b (Y ++ tail)
  = option_map (prepend Y) (findWith m (after_lits Y b) tail).
Proof.
  revert b. induction Y as [| c Y IH]; intros b Hfail.
  - cbn [app]. now rewrite prepend_nil.
  - cbn [app findWith].
    pose proof (Hfail [] c Y eq_refl) as H0.
    change (m b (c :: Y ++ tail) = None) in H0. rewrite H0.
    rewrite IH, further_prepend; [reflexivity |].
    intros pre c' Y' ->. apply (Hfail (c :: pre) c' Y' eq_refl).
Qed.
End Finding.

Section Skipping.
Implicit Types (s Y tail pre kw : text) (b : bool).
Implicit Types (cont f : text -> option (bool * text)).

Lemma ends_nl_app pre (c : ascii) Y :
  ends_nl (pre ++ c :: Y) = ends_nl (c :: Y).
Proof.
  induction pre as [| p pre IH]; [reflexivity |].
  cbn [app]. destruct (pre ++ c :: Y) as [| y l] eqn:Hl.
  - now destruct pre.
  - rewrite ends_nl_tail. exact IH.
Qed.

Lemma front_free_fails kw cont Y tail b :
  (exists sfx, strip keyword kw = Some sfx) ->
  ~ In "<"%char kw ->
  mentions Y = false -> Y <> [] -> boundary tail = true ->
  ends_nl Y = true \/ marker kw cont tail = None ->
  front (marker kw cont) b (Y ++ tail) = None.
Proof.
  intros Hkw Hlt HY Hne Hb Hlast. unfold front. destruct b; [| reflexivity].
  rewrite skip_app. destruct (skip CSpace Y) as [| y Y'] eqn:Hsk.
  - rewrite skip_boundary by (exact Hb || reflexivity).
    destruct Hlast as [Hend | Htail]; [| exact Htail].
    now apply ends_nl_skip in Hend.
  - apply marker_free_fails; try assumption; [| discriminate].
    rewrite <- Hsk. now apply mentions_skip.
Qed.

(** The search skips a text that does not name the keyword. *)
Lemma findWith_skip_free kw cont Y tail b :
  (exists sfx, strip keyword kw = Some sfx) ->
  ~ In "<"%char kw ->
  mentions Y = false -> boundary tail = true ->
  Y = [] \/ ends_nl Y = true \/ marker kw cont tail = None ->
  findWith (front (marker kw cont)) b (Y ++ tail)
  = option_map (prepend Y)
      (findWith (front (marker kw cont)) (after_lits Y b) tail).
Proof.
  intros Hkw Hlt HY Hb Hlast. apply findWith_skip.
  intros pre c Y' ->.
  apply (front_free_fails kw cont (c :: Y')); try assumption.
  - now apply mentions_suffix in HY.
  - discriminate.
  - destruct Hlast as [Hnil | [Hend | Htail]].
    + now destruct pre.
    + left. now rewrite ends_nl_app in Hend.
    + now right.
Qed.

Lemma after_lits_line pre b :
  existsb is_nl pre = false -> pre <> [] -> after_lits pre b = false.
Proof.
  revert b. induction pre as [| c pre IH]; intros b Hnl Hne; [now elim Hne |].
  cbn [existsb] in Hnl. apply orb_false_elim in Hnl as [Hc Hpre].
  unfold after_lits. cbn [fold_left]. destruct pre as [| c' pre'].
  - exact Hc.
  - apply (IH (is_nl c)); [exact Hpre | discriminate].
Qed.

(** The search skips a piece of one line on which the matcher fails. *)
Lemma findWith_skip_line f X tail b :
  existsb is_nl X = false -> X <> [] ->
  front f b (X ++ tail) = None ->
  findWith (front f) b (X ++ tail)
  = option_map (prepend X) (findWith (front f) false tail).
Proof.
  intros Hnl Hne H0.
  rewrite findWith_skip, (after_lits_line X b Hnl Hne); [reflexivity |].
  intros pre c Y' ->. destruct pre as [| p pre]; [exact H0 |].
  rewrite after_lits_line; [reflexivity | | discriminate].
  rewrite existsb_app in Hnl. now apply orb_false_elim in Hnl as [Hpre _].
Qed.

Lemma scanFor_skip f Y tail :
  (forall pre c Y', Y = pre ++ c :: Y' -> f (c :: Y' ++ tail) = None) ->
  scanFor f (Y ++ tail) = scanFor f tail.
Proof.
  induction Y as [| c Y IH]; intros Hfail; [reflexivity |].
  cbn [app scanFor]. rewrite (Hfail [] c Y eq_refl). apply IH.
  intros pre c' Y' ->. apply (Hfail (c :: pre) c' Y' eq_refl).
Qed.

Lemma scanFor_skip_free kw cont Y tail :
  (exists sfx, strip keyword kw = Some sfx) ->
  ~ In "<"%char kw ->
  mentions Y = false -> boundary tail = true ->
  scanFor (marker kw cont) (Y ++ tail) = scanFor (marker kw cont) tail.
Proof.
  intros Hkw Hlt HY Hb. apply scanFor_skip.
  intros pre c Y' ->. apply (marker_free_fails kw cont (c :: Y'));
    try assumption; [| discriminate].
  now apply mentions_suffix in HY.
Qed.

Lemma replaceAll_skip (fuel : nat) (r : regex) (W : text) X Y b b' :
  find r b (X ++ Y) = option_map (prepend X) (find r b' Y) ->
  replaceAll fuel r W b (X ++ Y)
  = (X ++ fst (replaceAll fuel r W b' Y), snd (replaceAll fuel r W b' Y)).
Proof.
  intros Hfind. destruct fuel as [| fuel]; [reflexivity |].
  cbn [replaceAll]. rewrite Hfind.
  destruct (find r b' Y) as [[sk ab af] |]; [| reflexivity].
  cbn. destruct (replaceAll fuel r W ab af) as [out n]. cbn.
  now rewrite <- app_assoc.
Qed.
End Skipping.

(* ===================================================================== *)
(** * The patterns on the blocks of a document                             *)
(* ===================================================================== *)

Section Blocks.
Implicit Types (s body rest X : text) (b : bool).
Implicit Types (cont : text -> option (bool * text)).

Lemma marker_standalone cont X :
  marker keyword cont (standaloneMarker ++ X) = cont X.
Proof. reflexivity. Qed.

Lemma marker_start cont X :
  marker (keyword ++ bytes ":start") cont (startMarker ++ X) = cont X.
Proof. reflexivity. Qed.

Lemma marker_end cont X :
  marker (keyword ++ bytes ":end") cont (endMarker ++ X) = cont X.
Proof. reflexivity. Qed.

Lemma eolEnd_at_eol rest : at_eol rest = true -> eolEnd rest = Some (false, rest).
Proof.
  intros Heol. unfold eolEnd. destruct rest as [| c rest]; [reflexivity |].
  cbn [at_eol] in Heol. cbn [hskip]. rewrite Heol, andb_false_r.
  cbn [at_eol]. now rewrite Heol.
Qed.

Lemma keyword_prefix (sfx : text) :
  exists sfx', strip keyword (keyword ++ sfx) = Some sfx'.
Proof. exists sfx. apply strip_pre. Qed.

Lemma keyword_prefix_self : exists sfx', strip keyword keyword = Some sfx'.
Proof. now exists []. Qed.

Lemma no_lt_keyword : ~ In "<"%char keyword.
Proof. cbn. intuition discriminate. Qed.

Lemma no_lt_start : ~ In "<"%char (keyword ++ bytes ":start").
Proof. cbn. intuition discriminate. Qed.

Lemma no_lt_end : ~ In "<"%char (keyword ++ bytes ":end").
Proof. cbn. intuition discriminate. Qed.

(** The standalone pattern matches the standalone marker on a line of its
    own... *)
Lemma standalone_hit rest :
  at_eol rest = true ->
  findWith standaloneFn true (standaloneMarker ++ rest)
  = Some (mkFound [] false rest).
Proof.
  intros Heol. destruct (standaloneMarker ++ rest) as [| c s] eqn:Hs;
    [discriminate |].
  cbn [findWith]. rewrite <- Hs. unfold standaloneFn, front.
  change (skip CSpace (standaloneMarker ++ rest))
    with (standaloneMarker ++ rest).
  now rewrite marker_standalone, eolEnd_at_eol.
Qed.

(** ...and passes over a region whose body does not name the keyword. *)
Lemma standalone_skips_region body rest b :
  mentions body = false ->
  findWith standaloneFn b (startMarker ++ body ++ endMarker ++ rest)
  = option_map (prepend (startMarker ++ body ++ endMarker))
      (findWith standaloneFn false rest).
Proof.
  intros Hbody. unfold standaloneFn.
  rewrite findWith_skip_line;
    [| reflexivity | discriminate | destruct b; reflexivity].
  rewrite (findWith_skip_free keyword eolEnd body (endMarker ++ rest));
    [| exact keyword_prefix_self | exact no_lt_keyword | exact Hbody
     | reflexivity | right; right; reflexivity].
  rewrite findWith_skip_line;
    [| reflexivity | discriminate
     | destruct (after_lits body false); reflexivity].
  now rewrite !prepend_prepend.
Qed.

(** The region pattern matches a region on lines of its own whose body does
    not name the keyword... *)
Lemma start_hit body rest :
  mentions body = false -> at_eol rest = true ->
  findWith startFn true (startMarker ++ body ++ endMarker ++ rest)
  = Some (mkFound [] false rest).
Proof.
  intros Hbody Heol.
  destruct (startMarker ++ body ++ endMarker ++ rest) as [| c s] eqn:Hs;
    [discriminate |].
  cbn [findWith]. rewrite <- Hs. unfold startFn, front.
  change (skip CSpace (startMarker ++ body ++ endMarker ++ rest))
    with (startMarker ++ body ++ endMarker ++ rest).
  rewrite marker_start. unfold endFn.
  rewrite scanFor_skip_free;
    [| apply keyword_prefix | exact no_lt_end | exact Hbody | reflexivity].
  destruct (endMarker ++ rest) as [| c' s'] eqn:Hs'; [discriminate |].
  cbn [scanFor]. rewrite <- Hs', marker_end.
  now rewrite eolEnd_at_eol.
Qed.

(** ...and passes over a standalone marker. *)
Lemma start_skips_standalone rest b :
  findWith startFn b (standaloneMarker ++ rest)
  = option_map (prepend standaloneMarker) (findWith startFn false rest).
Proof.
  unfold startFn. apply findWith_skip_line;
    [reflexivity | discriminate | destruct b; reflexivity].
Qed.
End Blocks.

(* ===================================================================== *)
(** * One pass of ReplaceAllFunc over a document                           *)
(* ===================================================================== *)

Section Pass.
Variable r : regex.
Variable kw : text.
Variable cont : text -> option (bool * text).
Variable hit : block -> bool.
Variable t : text.

Hypothesis r_fn : forall b s, run r b s = front (marker kw cont) b s.
Hypothesis kw_keyword : exists sfx, strip keyword kw = Some sfx.
Hypothesis kw_no_lt : ~ In "<"%char kw.
Hypothesis r_hit :
  forall blk rest,
    block_ok blk = true -> hit blk = true -> at_eol rest = true ->
    findWith (front (marker kw cont)) true (blockText blk ++ rest)
    = Some (mkFound [] false rest).
Hypothesis r_pass :
  forall blk rest b,
    block_ok blk = true -> hit blk = false ->
    findWith (front (marker kw cont)) b (blockText blk ++ rest)
    = option_map (prepend (blockText blk))
        (findWith (front (marker kw cont)) false rest).

Lemma blockText_wrapped : blockText (wrapped t) = embedText t.
Proof.
  unfold blockText, wrapped, embedText. now rewrite <- !app_assoc.
Qed.

Lemma blockText_boundary (blk : block) (rest : text) :
  boundary (blockText blk ++ rest) = true.
Proof. destruct blk; reflexivity. Qed.

Lemma blockText_length (blk : block) : 0 < length (blockText blk).
Proof.
  destruct blk as [| body]; cbn [blockText]; [cbn; lia |].
  rewrite length_app. cbn. lia.
Qed.

Lemma find_fn b s : find r b s = findWith (front (marker kw cont)) b s.
Proof. apply find_findWith. exact r_fn. Qed.

Lemma find_free_end (seg : text) b : mentions seg = false -> find r b seg = None.
Proof.
  intros Hseg. rewrite find_fn, <- (app_nil_r seg).
  rewrite findWith_skip_free; try assumption; [| reflexivity | now right; right].
  cbn [findWith]. now destruct (after_lits seg b).
Qed.

Lemma items_ok_rest (seg : text) (items : list (block * text)) :
  at_eol seg = true ->
  match items with [] => true | _ :: _ => ends_nl seg end = true ->
  at_eol (seg ++ doc items) = true.
Proof.
  intros Heol Hend. destruct seg as [| c seg]; [| exact Heol].
  destruct items; [reflexivity | discriminate].
Qed.

Lemma pass_doc (items : list (block * text)) :
  forall (seg : text) (b : bool) (fuel : nat),
    mentions seg = false ->
    items_ok items = true ->
    (items <> [] -> (seg = [] /\ b = true) \/ ends_nl seg = true) ->
    length (seg ++ doc items) <= fuel ->
    replaceAll fuel r (embedText t) b (seg ++ doc items)
    = (seg ++ doc (rewriteBlocks hit t items), countBlocks hit items).
Proof.
  induction items as [| [blk seg'] items IH]; intros seg b fuel Hseg Hok Hlead Hfuel.
  - cbn [doc rewriteBlocks map countBlocks]. rewrite app_nil_r.
    destruct fuel as [| fuel]; [reflexivity |].
    cbn [replaceAll]. now rewrite find_free_end.
  - cbn [items_ok] in Hok.
    apply andb_prop in Hok as [Hok Hitems].
    apply andb_prop in Hok as [Hok Hends].
    apply andb_prop in Hok as [Hok Heol].
    apply andb_prop in Hok as [Hblk Hseg'].
    apply negb_true_iff in Hseg'.
    pose proof (items_ok_rest seg' items Heol Hends) as Hrest.
    cbn [doc] in Hfuel |- *.
    assert (Hskip : find r b (seg ++ blockText blk ++ seg' ++ doc items)
                    = option_map (prepend seg)
                        (find r true (blockText blk ++ seg' ++ doc items))).
    { rewrite !find_fn.
      rewrite findWith_skip_free; try assumption.
      - destruct (Hlead ltac:(discriminate)) as [[-> ->] | Hend];
          [reflexivity | now rewrite after_lits_ends_nl].
      - apply blockText_boundary.
      - destruct (Hlead ltac:(discriminate)) as [[-> _] | Hend];
          [now left | now right; left]. }
    rewrite (replaceAll_skip fuel r (embedText t) seg _ b true Hskip).
    assert (Hnext :
      replaceAll fuel r (embedText t) true (blockText blk ++ seg' ++ doc items)
      = (blockText (if hit blk then wrapped t else blk)
           ++ seg' ++ doc (rewriteBlocks hit t items),
         ((if hit blk then 1 else 0) + countBlocks hit items)%nat)).
    { rewrite !length_app in Hfuel. pose proof (blockText_length blk) as Hlen.
      destruct (hit blk) eqn:Hhit.
      - destruct fuel as [| fuel]; [lia |].
        cbn [replaceAll]. rewrite find_fn, r_hit by assumption.
        cbn [after_bol after skipped].
        rewrite IH; try assumption.
        + cbn [app]. now rewrite blockText_wrapped.
        + intros Hne. right. destruct items; [now elim Hne | exact Hends].
        + rewrite length_app. lia.
      - assert (Hpass :
          find r true (blockText blk ++ seg' ++ doc items)
          = option_map (prepend (blockText blk))
              (find r false (seg' ++ doc items))).
        { rewrite !find_fn. now apply r_pass. }
        rewrite (replaceAll_skip fuel r (embedText t) _ _ true false Hpass).
        rewrite IH; try assumption.
        + reflexivity.
        + intros Hne. right. destruct items; [now elim Hne | exact Hends].
        + rewrite length_app. lia. }
    rewrite Hnext. cbn [fst snd rewriteBlocks map doc countBlocks].
    reflexivity.
Qed.
End Pass.

(* ===================================================================== *)
(** * The two passes of EmbedContents                                      *)
(* ===================================================================== *)

Section Passes.
Implicit Types (t lead : text) (items : list (block * text)).

Lemma mentions_nl (s : text) : mentions (nl :: s) = mentions s.
Proof. reflexivity. Qed.

Lemma mentions_before_nl (s tail : text) :
  mentions s = false -> mentions (nl :: tail) = false ->
  mentions (s ++ nl :: tail) = false.
Proof.
  intros Hs Htail. induction s as [| c s IH]; [exact Htail |].
  unfold mentions in *. cbn [app occurs] in Hs |- *.
  destruct (strip keyword (c :: s)) as [? |] eqn:Hin; [discriminate |].
  destruct (strip keyword (c :: s ++ nl :: tail)) as [e |] eqn:Hover.
  - exfalso.
    apply (strip_app keyword (c :: s) (nl :: tail)) in Hover
      as [(Y' & HY' & _) | (p2 & Hp2 & Hne & Ht)]; [congruence |].
    destruct (strip_head _ _ _ Ht Hne) as (c0 & p' & t0 & -> & [= <- _]).
    apply strip_eq in Hp2.
    assert (Hin' : In nl keyword)
      by (rewrite Hp2; apply in_or_app; right; now left).
    cbn in Hin'. intuition discriminate.
  - now apply IH.
Qed.

Lemma block_ok_wrapped t : mentions t = false -> block_ok (wrapped t) = true.
Proof.
  intros Ht. cbn [block_ok wrapped]. apply negb_true_iff.
  cbn [app]. rewrite !mentions_nl. now apply mentions_before_nl.
Qed.

Lemma items_ok_rewrite (hit : block -> bool) t items :
  mentions t = false -> items_ok items = true ->
  items_ok (rewriteBlocks hit t items) = true.
Proof.
  intros Ht. induction items as [| [blk seg] items IH]; [reflexivity |].
  cbn [items_ok rewriteBlocks map fst snd]. intros Hok.
  apply andb_prop in Hok as [Hok Hitems].
  apply andb_prop in Hok as [Hok Hends].
  apply andb_prop in Hok as [Hok Heol].
  apply andb_prop in Hok as [Hblk Hseg].
  fold (rewriteBlocks hit t items). rewrite (IH Hitems), Hseg, Heol.
  replace (block_ok (if hit blk then wrapped t else blk)) with true
    by (destruct (hit blk); [now rewrite block_ok_wrapped | now rewrite Hblk]).
  destruct items; [reflexivity | now rewrite Hends].
Qed.

Lemma rewrite_twice t items :
  rewriteBlocks isRegion t (rewriteBlocks isStandalone t items)
  = spliced t items.
Proof.
  unfold rewriteBlocks, spliced. rewrite map_map. apply map_ext.
  intros [[| body] seg]; reflexivity.
Qed.

Lemma count_regions t items :
  countBlocks isRegion (rewriteBlocks isStandalone t items) = length items.
Proof.
  induction items as [| [[| body] seg] items IH]; [reflexivity | |];
    cbn [rewriteBlocks map countBlocks fst isStandalone isRegion negb wrapped];
    fold (rewriteBlocks isStandalone t items); rewrite IH; reflexivity.
Qed.

Lemma lead_ok_inv lead :
  lead_ok lead = true ->
  mentions lead = false /\ (lead = [] \/ ends_nl lead = true).
Proof.
  unfold lead_ok. intros Hok. apply andb_prop in Hok as [Hfree Hend].
  apply negb_true_iff in Hfree. split; [exact Hfree |].
  destruct lead; [now left | now right].
Qed.

(** The first pass replaces the standalone markers and leaves the regions. *)
Lemma standalone_pass t lead items :
  lead_ok lead = true -> items_ok items = true ->
  ReplaceAllFunc embedStandaloneRegex (lead ++ doc items) (embedText t)
  = (lead ++ doc (rewriteBlocks isStandalone t items),
     countBlocks isStandalone items).
Proof.
  intros Hlead Hitems. apply lead_ok_inv in Hlead as [Hfree Hend].
  unfold ReplaceAllFunc.
  apply (pass_doc embedStandaloneRegex keyword eolEnd isStandalone t);
    try assumption.
  - exact run_standalone.
  - exact keyword_prefix_self.
  - exact no_lt_keyword.
  - intros [| body] rest _ Hhit Heol; [| discriminate].
    now apply standalone_hit.
  - intros [| body] rest b Hblk Hhit; [discriminate |].
    cbn [block_ok] in Hblk. apply negb_true_iff in Hblk.
    cbn [blockText]. rewrite <- !app_assoc.
    now apply standalone_skips_region.
  - intros _. destruct Hend as [-> | Hend]; [now left | now right].
  - reflexivity.
Qed.

(** The second pass replaces the regions. *)
Lemma start_pass t lead items :
  lead_ok lead = true -> items_ok items = true ->
  ReplaceAllFunc embedStartRegex (lead ++ doc items) (embedText t)
  = (lead ++ doc (rewriteBlocks isRegion t items),
     countBlocks isRegion items).
Proof.
  intros Hlead Hitems. apply lead_ok_inv in Hlead as [Hfree Hend].
  unfold ReplaceAllFunc.
  apply (pass_doc embedStartRegex (keyword ++ bytes ":start")
           (scanFor endFn) isRegion t); try assumption.
  - exact run_start.
  - apply keyword_prefix.
  - exact no_lt_start.
  - intros [| body] rest Hblk Hhit Heol; [discriminate |].
    cbn [block_ok] in Hblk. apply negb_true_iff in Hblk.
    cbn [blockText]. rewrite <- !app_assoc.
    now apply start_hit.
  - intros [| body] rest b _ Hhit; [| discriminate].
    apply start_skips_standalone.
  - intros _. destruct Hend as [-> | Hend]; [now left | now right].
  - reflexivity.
Qed.

(** Both passes over a document with at least one block: every block is
    replaced by the region written for [t], and the callbacks ran. *)
Lemma embed_doc t lead items :
  lead_ok lead = true -> items_ok items = true -> mentions t = false ->
  exists n1,
    ReplaceAllFunc embedStandaloneRegex (lead ++ doc items) (embedText t)
    = (lead ++ doc (rewriteBlocks isStandalone t items), n1)
    /\ ReplaceAllFunc embedStartRegex
         (lead ++ doc (rewriteBlocks isStandalone t items)) (embedText t)
       = (lead ++ doc (spliced t items), length items).
Proof.
  intros Hlead Hitems Ht. exists (countBlocks isStandalone items). split.
  - now apply standalone_pass.
  - rewrite start_pass, rewrite_twice, count_regions;
      [reflexivity | exact Hlead |].
    now apply items_ok_rewrite.
Qed.

Lemma EmbedContents_doc (fileName : string) t lead items (w : world) :
  files w !! fileName = Some (Regular (lead ++ doc items)) ->
  lead_ok lead = true -> items_ok items = true -> items <> [] ->
  mentions t = false ->
  EmbedContents fileName t w
  = (lead ++ doc (spliced t items), log_event (EvReadFile fileName) w).
Proof.
  intros Hfile Hlead Hitems Hne Ht.
  destruct (embed_doc t lead items Hlead Hitems Ht) as (n1 & H1 & H2).
  unfold EmbedContents, bind, os_ReadFile. rewrite Hfile, H1, H2.
  destruct items as [| item items]; [now elim Hne |].
  cbn [length]. now rewrite Nat.add_succ_r.
Qed.
End Passes.

(* ===================================================================== *)
(** * Every match takes some bytes, and the fuel is enough                 *)
(* ===================================================================== *)

Section Fuel.
Implicit Types (s rest p : text) (b : bool).
Implicit Types (cont f : text -> option (bool * text)).

Lemma strip_length p s s' :
  strip p s = Some s' -> length s = length p + length s'.
Proof. intros Hs. apply strip_eq in Hs. subst s. apply length_app. Qed.

Lemma skip_length (k : cclass) s : length (skip k s) <= length s.
Proof.
  destruct (skip_suffix k s) as [pre Hpre]. rewrite Hpre at 2.
  rewrite length_app. lia.
Qed.

Lemma hskip_length s : length (hskip s) <= length s.
Proof.
  induction s as [| c s IH]; [reflexivity |].
  cbn [hskip]. destruct (in_class CWhite c && negb (is_nl c));
    cbn [length]; lia.
Qed.

Lemma eolEnd_shrinks : shrinks eolEnd.
Proof.
  intros s b rest. unfold eolEnd.
  destruct (at_eol (hskip s)); [| discriminate].
  intros [= <- <-]. apply hskip_length.
Qed.

Lemma scanFor_shrinks f : shrinks f -> shrinks (scanFor f).
Proof.
  intros Hf s. induction s as [| c s IH]; intros b rest; cbn [scanFor].
  - destruct (f []) as [[b' rest'] |] eqn:Hhere; [| discriminate].
    intros [= <- <-]. now apply Hf in Hhere.
  - destruct (f (c :: s)) as [[b' rest'] |] eqn:Hhere.
    + intros [= <- <-]. now apply Hf in Hhere.
    + intros Hlater. apply IH in Hlater. cbn [length]. lia.
Qed.

Lemma marker_consumes (kw : text) cont s b rest :
  shrinks cont -> marker kw cont s = Some (b, rest) -> length rest < length s.
Proof.
  intros Hcont. unfold marker.
  destruct (strip (bytes "<!--") s) as [s1 |] eqn:H1; [| discriminate].
  destruct (strip kw (skip CWhite s1)) as [s2 |] eqn:H2; [| discriminate].
  destruct (strip (bytes "-->") (skip CWhite s2)) as [s3 |] eqn:H3;
    [| discriminate].
  intros Hrest. apply Hcont in Hrest.
  apply strip_length in H1, H2, H3. cbn [bytes list_ascii_of_string length] in *.
  pose proof (skip_length CWhite s1). pose proof (skip_length CWhite s2). lia.
Qed.

Lemma front_consumes f b s b' rest :
  (forall s b rest, f s = Some (b, rest) -> length rest < length s) ->
  front f b s = Some (b', rest) -> length rest < length s.
Proof.
  intros Hf. unfold front. destruct b; [| discriminate].
  intros Hrest. apply Hf in Hrest. pose proof (skip_length CSpace s). lia.
Qed.

Lemma standalone_consumes b s b' rest :
  run embedStandaloneRegex b s = Some (b', rest) -> length rest < length s.
Proof.
  rewrite run_standalone. apply front_consumes.
  intros s0 b0 rest0. apply marker_consumes, eolEnd_shrinks.
Qed.

Lemma start_consumes b s b' rest :
  run embedStartRegex b s = Some (b', rest) -> length rest < length s.
Proof.
  rewrite run_start. apply front_consumes.
  intros s0 b0 rest0. apply marker_consumes, scanFor_shrinks.
  intros s1 b1 rest1 Hend. apply Nat.lt_le_incl.
  exact (marker_consumes _ _ _ _ _ eolEnd_shrinks Hend).
Qed.

Variable r : regex.
Hypothesis r_consumes :
  forall b s b' rest, run r b s = Some (b', rest) -> length rest < length s.

Lemma find_consumes b s (f : found) :
  find r b s = Some f -> length (after f) < length s.
Proof.
  revert b f. induction s as [| c s IH]; intros b f; cbn [find].
  - destruct (run r b []) as [[b' rest] |] eqn:Hrun; [| discriminate].
    apply r_consumes in Hrun. cbn in Hrun. lia.
  - destruct (run r b (c :: s)) as [[b' rest] |] eqn:Hrun.
    + intros [= <-]. now apply r_consumes in Hrun.
    + destruct (find r (is_nl c) s) as [f' |] eqn:Hfind; [| discriminate].
      intros [= <-]. apply IH in Hfind. cbn [further after length]. lia.
Qed.

(** Any fuel that covers the length of the text gives the same result. *)
Lemma replaceAll_fuel (repl : text) (fuel1 fuel2 : nat) b s :
  length s <= fuel1 -> length s <= fuel2 ->
  replaceAll fuel1 r repl b s = replaceAll fuel2 r repl b s.
Proof.
  revert fuel2 b s.
  induction fuel1 as [| fuel1 IH]; intros fuel2 b s H1 H2.
  - destruct fuel2 as [| fuel2]; [reflexivity |]. cbn [replaceAll].
    destruct (find r b s) as [f |] eqn:Hfind; [| reflexivity].
    apply find_consumes in Hfind. lia.
  - destruct fuel2 as [| fuel2]; cbn [replaceAll].
    + destruct (find r b s) as [f |] eqn:Hfind; [| reflexivity].
      apply find_consumes in Hfind. lia.
    + destruct (find r b s) as [f |] eqn:Hfind; [| reflexivity].
      apply find_consumes in Hfind.
      rewrite (IH fuel2 (after_bol f) (after f)) by lia. reflexivity.
Qed.
End Fuel.
(* ===================================================================== *)
(** * DefaultTags                                                          *)
(* ===================================================================== *)

(** C4, as the specification states it, fails: the flag set registers the
    option under the name "Tags", so "-tags=foo,bar" names an option that is
    not defined and the parse fails. *)
Lemma DefaultTags_lowercase_rejected :
  DefaultTags (Some "-tags=foo,bar"%string) <> ["foo"%string; "bar"%string].
Proof. vm_compute. discriminate. Qed.

(** C4 (amended): the fallback string "-Tags=foo,bar" yields the tags foo and
    bar; "-tags=foo,bar" and "-other=x" name options that are not defined and
    yield the empty list; and every string whose parse fails yields the empty
    list, the error being dropped. *)
Theorem DefaultTags_fallback :
  DefaultTags (Some "-Tags=foo,bar"%string) = ["foo"%string; "bar"%string]
  /\ DefaultTags (Some "-tags=foo,bar"%string) = []
  /\ DefaultTags (Some "-other=x"%string) = []
  /\ (forall f err,
        FlagSet_Parse "" (Fields f) = inr err -> DefaultTags (Some f) = []).
Proof.
  repeat split; try reflexivity.
  intros f err Hparse. unfold DefaultTags. now rewrite Hparse.
Qed.

Lemma DefaultTags_fallback_witness :
  FlagSet_Parse "" (Fields "-=x")
  = inr (FlagError "bad flag syntax: -=x")
  /\ DefaultTags (Some "-=x"%string) = [].
Proof.
  split.
  - reflexivity.
  - exact (proj2 (proj2 (proj2 DefaultTags_fallback)) "-=x"%string
             (FlagError "bad flag syntax: -=x") eq_refl).
Defined.

(** C10: a fallback string that parses and leaves the option as it was,
    whatever its value (the string names no "Tags" option), yields the
    one-element list that holds the empty string, which is what splitting the
    default value [""] on commas gives. *)
Theorem DefaultTags_no_option (f : string) :
  (forall tags, FlagSet_Parse tags (Fields f) = inl tags) ->
  DefaultTags (Some f) = [""%string].
Proof.
  intros Hkeep. unfold DefaultTags. rewrite (Hkeep ""%string). reflexivity.
Qed.

Lemma DefaultTags_no_option_witness :
  DefaultTags (Some ""%string) = [""%string].
Proof.
  apply DefaultTags_no_option. intros tags. reflexivity.
Defined.

(* ===================================================================== *)
(** * CheckFile                                                            *)
(* ===================================================================== *)

Lemma Compare_same (x : text) : Compare (buffer x) (buffer x) = (true, None).
Proof. unfold Compare. simpl. now rewrite Z.eqb_refl. Qed.

(** C2, on the code: for a destination that does not exist, [os.Open] returns
    a [*fs.PathError], which is not the sentinel the code compares it with, so
    [CheckFile] returns the wrapped open error and not [checkErr]; for a
    destination whose content is the rendered text it returns no error and
    the only effect is the opening of the file. *)
Theorem CheckFile_missing_or_equal (b : text) (path : string) (w : world) :
  (files w !! path = None ->
   CheckFile b path w
   = (Some (Wrap ("failed to open file " +:+ path +:+ " for checking: ")
                 (PathError "open" path ENOENT)),
      log_event (EvOpen path) w)
   /\ fst (CheckFile b path w) <> Some checkErr)
  /\ (files w !! path = Some (Regular b) ->
      CheckFile b path w = (None, log_event (EvOpen path) w)).
Proof.
  split.
  - intros Hmiss. unfold CheckFile, bind, os_Open. rewrite Hmiss. simpl.
    split; [reflexivity | discriminate].
  - intros Hfile. unfold CheckFile, bind, os_Open. rewrite Hfile.
    change (mkReader b None) with (buffer b). rewrite Compare_same.
    reflexivity.
Qed.

Lemma CheckFile_missing_or_equal_witness :
  fst (CheckFile (bytes "doc") "README.md" emptyWorld)
  = Some (Wrap "failed to open file README.md for checking: "
               (PathError "open" "README.md" ENOENT))
  /\ fst (CheckFile (bytes "doc") "README.md"
            (store "README.md" (bytes "doc") emptyWorld)) = None.
Proof.
  split.
  - destruct (CheckFile_missing_or_equal (bytes "doc") "README.md" emptyWorld)
      as [Hmiss _].
    destruct (Hmiss eq_refl) as [Heq _]. rewrite Heq. reflexivity.
  - destruct (CheckFile_missing_or_equal (bytes "doc") "README.md"
                (store "README.md" (bytes "doc") emptyWorld)) as [_ Hsame].
    rewrite Hsame; [reflexivity |].
    unfold store. simpl. apply lookup_insert_eq.
Defined.

(* ===================================================================== *)
(** * The reconciler on an empty destination                               *)
(* ===================================================================== *)

(** C9: for a unit whose destination is the empty string, whatever the
    options (the merge and verify flags included), the body of the loop writes
    the rendered text to standard output and does nothing else: the files are
    untouched and the only effect recorded is that output.  (When the renderer
    fails, its error is returned and there is no effect at all.) *)
Theorem writeUnit_empty_destination {Package : Type} (Renderer : Type)
    (Renderer_File : Renderer -> text -> text -> list Package -> text + error)
    (out : Renderer) (header footer : text) (opts : CommandOptions)
    (pkgs : list Package) (w : world) :
  writeUnit Renderer Renderer_File out header footer opts "" pkgs w
  = match Renderer_File out header footer pkgs with
    | inl t =>
        (None,
         mkWorld (files w) (mkdir_errno w) (write_errno w)
                 (effects w ++ [EvStdout t]))
    | inr err => (Some err, w)
    end.
Proof.
  unfold writeUnit.
  destruct (Renderer_File out header footer pkgs) as [t | err];
    [| reflexivity].
  rewrite andb_false_r. reflexivity.
Qed.

(* ===================================================================== *)
(** * GetSpecs on the scenario of the specification                        *)
(* ===================================================================== *)

Section Scenario.
Context {Package : Type}.
Variable ReadDir : string -> option (list FileInfo).

(** [pkgB] holds the directories [.git] and [inner] and any number of
    plain files named between them. *)
Variable plain : list FileInfo.
Hypothesis plain_files : Forall (fun f => IsDir f = false) plain.
Hypothesis pkgB_entries :
  ReadDir "./pkgB/"
  = Some (mkInfo ".git" true :: plain ++ [mkInfo "inner" true]).

(** [inner] has no sub-directory (or cannot be read). *)
Hypothesis inner_entries :
  forall entries,
    ReadDir "./pkgB/inner" = Some entries ->
    Forall (fun f => IsDir f = false) entries.

Lemma subPaths_plain (p : string) (entries : list FileInfo) :
  Forall (fun f => IsDir f = false) entries -> subPaths p entries = [].
Proof.
  induction 1 as [| f entries Hf _ IH]; [reflexivity |].
  unfold subPaths in *. simpl. rewrite Hf.
  destruct (IsIgnoredDir (Name f)); exact IH.
Qed.

Lemma subPaths_app (p : string) (es1 es2 : list FileInfo) :
  subPaths p (es1 ++ es2) = subPaths p es1 ++ subPaths p es2.
Proof. unfold subPaths. apply omap_app. Qed.

(** C6: the arguments [./pkgA] and [./pkgB/...] expand to the descriptor of
    [pkgA], not a wildcard, then the wildcard descriptors of [pkgB] and of
    [pkgB/inner], in this order and with nothing for [.git], whatever [.git]
    holds; two rounds of the queue are enough. *)
Theorem GetSpecs_scenario (fuel : nat) :
  2 <= fuel ->
  GetSpecs (Package := Package) ReadDir fuel
    ["./pkgA"%string; "./pkgB/..."%string]
  = Some [mkSpec "./pkgA" "./pkgA" false true "" None;
          mkSpec "./pkgB/" "./pkgB/" true true "" None;
          mkSpec "./pkgB/inner" "./pkgB/inner" true true "" None].
Proof.
  intros Hfuel.
  destruct fuel as [| [| fuel]]; [lia | lia |].
  assert (Hsubs : subPaths "./pkgB/"
                    (mkInfo ".git" true :: plain ++ [mkInfo "inner" true])
                  = ["./pkgB/inner"%string]).
  { change (mkInfo ".git" true :: plain ++ [mkInfo "inner" true])
      with ([mkInfo ".git" true] ++ plain ++ [mkInfo "inner" true]).
    rewrite !subPaths_app, (subPaths_plain _ plain plain_files).
    reflexivity. }
  assert (Hinner : walk (Package := Package) ReadDir (S fuel)
                     ["./pkgB/inner"%string] = Some []).
  { simpl. destruct (ReadDir "./pkgB/inner") as [entries |] eqn:Hrd.
    - rewrite (subPaths_plain _ entries (inner_entries entries eq_refl)).
      destruct fuel; reflexivity.
    - destruct fuel; reflexivity. }
  cbn [GetSpecs]. unfold expand.
  change (HasSuffix "./pkgA" "/...") with false.
  change (HasSuffix "./pkgB/..." "/...") with true.
  cbn [negb].
  change (IsLocalPath "./pkgA") with true.
  change (substring 0 (String.length "./pkgB/..." - 3) "./pkgB/...")
    with "./pkgB/"%string.
  change (IsLocalPath "./pkgB/") with true.
  cbn [negb walk].
  rewrite pkgB_entries, Hsubs.
  cbn [app]. cbn [walk app] in Hinner.
  rewrite Hinner. reflexivity.
Qed.
End Scenario.

Lemma GetSpecs_scenario_witness :
  GetSpecs (Package := unit) scenarioDir 2
    ["./pkgA"%string; "./pkgB/..."%string]
  = Some [mkSpec "./pkgA" "./pkgA" false true "" None;
          mkSpec "./pkgB/" "./pkgB/" true true "" None;
          mkSpec "./pkgB/inner" "./pkgB/inner" true true "" None].
Proof.
  apply (GetSpecs_scenario scenarioDir [mkInfo "doc.go" false]).
  - repeat constructor.
  - reflexivity.
  - intros entries Hrd. vm_compute in Hrd. injection Hrd as <-.
    repeat constructor.
  - lia.
Defined.

(* ===================================================================== *)
(** * Compare                                                              *)
(* ===================================================================== *)

Section Digest.
Open Scope Z_scope.

Lemma prime128_inv_ok : (prime128 * prime128_inv) mod two128 = 1.
Proof. reflexivity. Qed.

Lemma byte_val_range (c : ascii) : 0 <= byte_val c < 256.
Proof.
  unfold byte_val. pose proof (N_ascii_bounded c) as Hc. lia.
Qed.

Lemma byte_val_inj (a b : ascii) : byte_val a = byte_val b -> a = b.
Proof.
  unfold byte_val. intros Heq. apply N2Z.inj in Heq.
  rewrite <- (ascii_N_embedding a), <- (ascii_N_embedding b). now rewrite Heq.
Qed.

Lemma lxor_range (a b : Z) :
  0 <= a < two128 -> 0 <= b < 256 -> 0 <= Z.lxor a b < two128.
Proof.
  intros Ha Hb. unfold two128 in *.
  assert (Hnn : 0 <= Z.lxor a b) by (apply Z.lxor_nonneg; lia).
  split; [exact Hnn |].
  destruct (Z.eq_dec (Z.lxor a b) 0) as [-> | Hne]; [lia |].
  apply Z.log2_lt_pow2; [lia |].
  pose proof (Z.log2_lxor a b ltac:(lia) ltac:(lia)) as Hlog.
  assert (Z.log2 a < 128).
  { destruct (Z.eq_dec a 0) as [-> | ?]; [simpl; lia |].
    apply Z.log2_lt_pow2; lia. }
  assert (Z.log2 b < 128).
  { destruct (Z.eq_dec b 0) as [-> | ?]; [simpl; lia |].
    apply Z.log2_lt_pow2; lia. }
  lia.
Qed.

Lemma fnv_round_range (h : Z) (c : ascii) : 0 <= fnv_round h c < two128.
Proof.
  unfold fnv_round. apply lxor_range; [| apply byte_val_range].
  apply Z.mod_pos_bound. reflexivity.
Qed.

Lemma lxor_cancel_l (a b c : Z) : Z.lxor a b = Z.lxor a c -> b = c.
Proof.
  intros Heq.
  rewrite <- (Z.lxor_0_l b), <- (Z.lxor_nilpotent a), Z.lxor_assoc, Heq,
    <- Z.lxor_assoc, Z.lxor_nilpotent, Z.lxor_0_l.
  reflexivity.
Qed.

Lemma lxor_cancel_r (a b c : Z) : Z.lxor a c = Z.lxor b c -> a = b.
Proof.
  rewrite (Z.lxor_comm a c), (Z.lxor_comm b c). apply lxor_cancel_l.
Qed.

(** Multiplying by the prime is one-to-one on 128-bit values. *)
Lemma mul_prime_inj (h1 h2 : Z) :
  0 <= h1 < two128 -> 0 <= h2 < two128 ->
  (h1 * prime128) mod two128 = (h2 * prime128) mod two128 -> h1 = h2.
Proof.
  intros H1 H2 Heq.
  assert (Hback : forall h, 0 <= h < two128 ->
            (((h * prime128) mod two128) * prime128_inv) mod two128 = h).
  { intros h Hh.
    rewrite Z.mul_mod_idemp_l by (unfold two128; lia).
    rewrite <- Z.mul_assoc, <- Z.mul_mod_idemp_r by (unfold two128; lia).
    rewrite prime128_inv_ok, Z.mul_1_r. apply Z.mod_small. exact Hh. }
  rewrite <- (Hback h1 H1), <- (Hback h2 H2), Heq. reflexivity.
Qed.

Lemma fnv_round_inj_state (h1 h2 : Z) (c : ascii) :
  0 <= h1 < two128 -> 0 <= h2 < two128 ->
  fnv_round h1 c = fnv_round h2 c -> h1 = h2.
Proof.
  intros H1 H2 Heq. unfold fnv_round in Heq.
  apply lxor_cancel_r in Heq. now apply mul_prime_inj.
Qed.

Lemma fnv_round_inj_byte (h : Z) (a b : ascii) :
  fnv_round h a = fnv_round h b -> a = b.
Proof.
  unfold fnv_round. intros Heq. apply lxor_cancel_l in Heq.
  now apply byte_val_inj.
Qed.

Lemma fold_round_range (data : text) (h : Z) :
  0 <= h < two128 -> 0 <= fold_left fnv_round data h < two128.
Proof.
  revert h. induction data as [| c data IH]; intros h Hh; [exact Hh |].
  simpl. apply IH, fnv_round_range.
Qed.

Lemma fold_round_inj (data : text) (h1 h2 : Z) :
  0 <= h1 < two128 -> 0 <= h2 < two128 ->
  fold_left fnv_round data h1 = fold_left fnv_round data h2 -> h1 = h2.
Proof.
  revert h1 h2. induction data as [| c data IH]; intros h1 h2 H1 H2 Heq;
    [exact Heq |].
  simpl in Heq. apply IH in Heq; try apply fnv_round_range.
  now apply fnv_round_inj_state in Heq.
Qed.

Lemma offset128_range : 0 <= offset128 < two128.
Proof. unfold offset128, two128. lia. Qed.

(** Two texts that differ in one byte only have different digests. *)
Lemma fnv128_one_byte (u v : text) (a b : ascii) :
  a <> b -> fnv128 (u ++ a :: v) <> fnv128 (u ++ b :: v).
Proof.
  intros Hab Heq. unfold fnv128 in Heq.
  rewrite !fold_left_app in Heq. simpl in Heq.
  apply fold_round_inj in Heq; try apply fnv_round_range.
  now apply fnv_round_inj_byte in Heq.
Qed.
End Digest.

(** C8, as the specification states it, fails: these two texts differ in
    every byte and have the same digest, so [Compare] reports them equal. *)
Lemma Compare_collision :
  bytes "]2+'94^6=Wi&Yh<]#A(p" <> bytes "^Mk=>$)~!{%jcQ5EqBUR"
  /\ Compare (buffer (bytes "]2+'94^6=Wi&Yh<]#A(p"))
             (buffer (bytes "^Mk=>$)~!{%jcQ5EqBUR")) = (true, None).
Proof.
  split; [discriminate | vm_compute; reflexivity].
Qed.

(** C8 (amended): on streams that end without error, [Compare] is reflexive
    and symmetric, it answers [true] exactly when the two 128-bit FNV-1
    digests are equal, and it answers [false] for two streams that differ in
    one byte only. *)
Theorem Compare_digest_equality :
  (forall x, Compare (buffer x) (buffer x) = (true, None))
  /\ (forall x y, Compare (buffer x) (buffer y) = Compare (buffer y) (buffer x))
  /\ (forall x y,
        Compare (buffer x) (buffer y) = (true, None) <-> fnv128 x = fnv128 y)
  /\ (forall u v a b,
        a <> b ->
        Compare (buffer (u ++ a :: v)) (buffer (u ++ b :: v)) = (false, None)).
Proof.
  split; [exact Compare_same |].
  split; [intros x y; unfold Compare; simpl; now rewrite Z.eqb_sym |].
  split.
  - intros x y. unfold Compare. simpl. split.
    + intros Heq. apply Z.eqb_eq. congruence.
    + intros Heq. rewrite Heq, Z.eqb_refl. reflexivity.
  - intros u v a b Hab. unfold Compare. simpl.
    destruct (Z.eqb_spec (fnv128 (u ++ a :: v)) (fnv128 (u ++ b :: v)))
      as [Heq | _]; [| reflexivity].
    now apply fnv128_one_byte in Heq.
Qed.

Lemma Compare_digest_equality_witness :
  Compare (buffer (bytes "abc")) (buffer (bytes "abd")) = (false, None).
Proof.
  destruct Compare_digest_equality as (_ & _ & _ & Hone).
  apply (Hone (bytes "ab") [] "c"%char "d"%char). discriminate.
Defined.

(* ===================================================================== *)
(** * Grouping by destination                                              *)
(* ===================================================================== *)

Section Grouping.
Context {Package : Type}.
Implicit Types (specs : list (PackageSpec Package)).
Implicit Types (m : gmap string (list Package)).

Lemma addSpec_lookup m (spec : PackageSpec Package) (d : string) :
  addSpec m spec !! d
  = match Pkg spec with
    | Some pkg =>
        if String.eqb (OutputFile spec) d
        then Some (default [] (m !! d) ++ [pkg])
        else m !! d
    | None => m !! d
    end.
Proof.
  unfold addSpec. destruct (Pkg spec) as [pkg |]; [| reflexivity].
  destruct (String.eqb_spec (OutputFile spec) d) as [-> | Hne].
  - apply lookup_insert_eq.
  - now apply lookup_insert_ne.
Qed.

Lemma pkgsFor_cons (d : string) (spec : PackageSpec Package) specs :
  pkgsFor d (spec :: specs)
  = match Pkg spec with
    | Some pkg =>
        if String.eqb (OutputFile spec) d
        then pkg :: pkgsFor d specs
        else pkgsFor d specs
    | None => pkgsFor d specs
    end.
Proof.
  unfold pkgsFor. simpl.
  destruct (String.eqb (OutputFile spec) d), (Pkg spec); reflexivity.
Qed.

Lemma fold_addSpec_lookup specs m (d : string) :
  fold_left addSpec specs m !! d
  = match pkgsFor d specs with
    | [] => m !! d
    | pkgs => Some (default [] (m !! d) ++ pkgs)
    end.
Proof.
  revert m. induction specs as [| spec specs IH]; intros m; [reflexivity |].
  cbn [fold_left]. rewrite IH, addSpec_lookup, pkgsFor_cons.
  destruct (Pkg spec) as [pkg |].
  - destruct (String.eqb (OutputFile spec) d).
    + cbn. destruct (pkgsFor d specs) as [| p ps]; [reflexivity |].
      now rewrite <- app_assoc.
    + reflexivity.
  - destruct (String.eqb (OutputFile spec) d); reflexivity.
Qed.

Lemma groupSpecs_lookup specs (d : string) :
  groupSpecs specs !! d
  = match pkgsFor d specs with
    | [] => None
    | pkgs => Some pkgs
    end.
Proof.
  unfold groupSpecs. rewrite fold_addSpec_lookup, lookup_empty.
  destruct (pkgsFor d specs); reflexivity.
Qed.

(** C5 (amended): in whatever order the map is visited, every destination
    makes one unit, the units are exactly the destinations that received a
    model, and the models of a unit are those of its descriptors in the order
    of the descriptors, the descriptors without a model being left out.  The
    order of the units themselves is not determined. *)
Theorem groupSpecs_units specs (order : list (string * list Package)) :
  range_order (groupSpecs specs) order ->
  NoDup (order.*1)
  /\ (forall d pkgs,
        (d, pkgs) ∈ order <-> pkgs = pkgsFor d specs /\ pkgs <> []).
Proof.
  unfold range_order. intros Hperm. split.
  - rewrite Hperm. apply NoDup_fst_map_to_list.
  - intros d pkgs. rewrite Hperm, elem_of_map_to_list, groupSpecs_lookup.
    destruct (pkgsFor d specs) as [| p ps].
    + split; [discriminate | intros [-> Hne]; now elim Hne].
    + split; [intros [= <-]; now split | intros [-> _]; reflexivity].
Qed.
End Grouping.

Lemma groupSpecs_twoSpecs :
  groupSpecs twoSpecs = <["b.md"%string := [2]]> {["a.md"%string := [1]]}.
Proof.
  unfold groupSpecs, twoSpecs. cbn [fold_left]. unfold addSpec. cbn.
  rewrite lookup_empty. cbn. rewrite lookup_insert_ne by discriminate.
  rewrite lookup_empty. reflexivity.
Qed.

(** C5, as the specification states it, fails: for two descriptors routed to
    [a.md] and [b.md], in this order, the second loop may visit [b.md]
    first. *)
Lemma groupSpecs_order_not_first_seen :
  destinations [] twoSpecs = ["a.md"%string; "b.md"%string]
  /\ exists order,
       range_order (groupSpecs twoSpecs) order
       /\ order.*1 <> destinations [] twoSpecs.
Proof.
  split; [reflexivity |].
  exists [("b.md"%string, [2]); ("a.md"%string, [1])]. split.
  - unfold range_order. rewrite groupSpecs_twoSpecs.
    rewrite map_to_list_insert
      by (rewrite lookup_singleton_ne; [reflexivity | discriminate]).
    now rewrite map_to_list_singleton.
  - discriminate.
Qed.

Lemma groupSpecs_units_witness :
  NoDup (map_to_list (groupSpecs twoSpecs)).*1
  /\ (forall d pkgs,
        (d, pkgs) ∈ map_to_list (groupSpecs twoSpecs)
        <-> pkgs = pkgsFor d twoSpecs /\ pkgs <> []).
Proof.
  apply (groupSpecs_units twoSpecs). unfold range_order. reflexivity.
Defined.

(* ===================================================================== *)
(** * EmbedContents                                                        *)
(* ===================================================================== *)

Section Merge.
Implicit Types (t data lead : text) (items : list (block * text)).

Lemma ReplaceAllFunc_none (r : regex) data t :
  find r true data = None -> ReplaceAllFunc r data t = (data, 0).
Proof.
  intros Hnone. unfold ReplaceAllFunc.
  destruct (length data); cbn [replaceAll]; [reflexivity |].
  now rewrite Hnone.
Qed.

(** C1, as the specification states it, fails: what is appended to a file
    without markers is the rendered text alone, without the marker lines. *)
Lemma EmbedContents_appends_without_markers :
  noMarkers (bytes "intro")
  /\ fst (EmbedContents "README.md" (bytes "doc")
            (oneFile "README.md" (bytes "intro")))
     = bytes "intro" ++ [nl; nl] ++ bytes "doc"
  /\ fst (EmbedContents "README.md" (bytes "doc")
            (oneFile "README.md" (bytes "intro")))
     <> bytes "intro" ++ [nl; nl] ++ embedText (bytes "doc").
Proof.
  split; [split; reflexivity |].
  split; [vm_compute; reflexivity | vm_compute; discriminate].
Qed.

(** C1 (amended): merging the text [t] into an existing file in which
    neither pattern matches yields the content of the file, a blank line, and
    [t] itself; the file is read and nothing else happens. *)
Theorem EmbedContents_no_markers (fileName : string) data t (w : world) :
  files w !! fileName = Some (Regular data) ->
  noMarkers data ->
  EmbedContents fileName t w
  = (data ++ [nl; nl] ++ t, log_event (EvReadFile fileName) w).
Proof.
  intros Hfile [Hstandalone Hstart].
  unfold EmbedContents, bind, os_ReadFile. rewrite Hfile.
  rewrite (ReplaceAllFunc_none _ _ _ Hstandalone).
  rewrite (ReplaceAllFunc_none _ _ _ Hstart).
  reflexivity.
Qed.

Lemma EmbedContents_no_markers_witness :
  fst (EmbedContents "README.md" (bytes "doc")
         (oneFile "README.md" (bytes "intro")))
  = bytes "intro" ++ [nl; nl] ++ bytes "doc".
Proof.
  rewrite (EmbedContents_no_markers "README.md" (bytes "intro") (bytes "doc")).
  - reflexivity.
  - unfold oneFile, store. cbn [files]. apply lookup_insert_eq.
  - split; reflexivity.
Defined.

(** C3, as the specification states it, fails: the patterns are case
    sensitive and spell the keyword [gomarkdoc:Embed], so the marker written
    [gomarkdoc:embed] is not found and the text is appended after it. *)
Lemma EmbedContents_lowercase_marker_kept :
  fst (EmbedContents "README.md" (bytes "doc")
         (oneFile "README.md" (bytes "<!-- gomarkdoc:embed -->")))
  = bytes "<!-- gomarkdoc:embed -->" ++ [nl; nl] ++ bytes "doc"
  /\ fst (EmbedContents "README.md" (bytes "doc")
            (oneFile "README.md" (bytes "<!-- gomarkdoc:embed -->")))
     <> embedText (bytes "doc").
Proof.
  split; [vm_compute; reflexivity | vm_compute; discriminate].
Qed.

(** C3 (amended): in an existing file made of texts that do not name the
    keyword [gomarkdoc:Embed] and of one or more blocks on lines of their own,
    each block being the standalone marker or a region from the start marker
    to the end marker, all spelled as the patterns spell them, merging [t]
    (which does not name the keyword either) replaces every block by the
    wrapped text and appends nothing. *)
Theorem EmbedContents_replaces_blocks (fileName : string) t lead items
    (w : world) :
  files w !! fileName = Some (Regular (lead ++ doc items)) ->
  lead_ok lead = true -> items_ok items = true -> items <> [] ->
  mentions t = false ->
  EmbedContents fileName t w
  = (lead ++ doc (spliced t items), log_event (EvReadFile fileName) w)
  /\ blockText (wrapped t) = embedText t.
Proof.
  intros Hfile Hlead Hitems Hne Ht. split.
  - now apply EmbedContents_doc.
  - apply blockText_wrapped.
Qed.

(** C7, as the specification states it, fails for a text that holds a
    marker itself: merged into its own wrapped region, the text made of the
    end marker leaves one end marker too many. *)
Lemma EmbedContents_not_idempotent :
  fst (EmbedContents "README.md" endMarker
         (oneFile "README.md" (embedText endMarker)))
  = embedText endMarker ++ [nl; nl] ++ endMarker
  /\ fst (EmbedContents "README.md" endMarker
            (oneFile "README.md" (embedText endMarker)))
     <> embedText endMarker.
Proof.
  split; [vm_compute; reflexivity | vm_compute; discriminate].
Qed.

(** C7 (amended): for a text [t] that does not name the keyword
    [gomarkdoc:Embed], merging [t] into a file whose content is exactly the
    wrapped region for [t] leaves that content as it is. *)
Theorem EmbedContents_idempotent (fileName : string) t (w : world) :
  files w !! fileName = Some (Regular (embedText t)) ->
  mentions t = false ->
  EmbedContents fileName t w
  = (embedText t, log_event (EvReadFile fileName) w).
Proof.
  intros Hfile Ht.
  assert (Hdoc : embedText t = [] ++ doc [(wrapped t, [])]).
  { cbn [doc app]. now rewrite !app_nil_r, blockText_wrapped. }
  rewrite Hdoc in Hfile.
  rewrite (EmbedContents_doc fileName t [] [(wrapped t, [])] w Hfile);
    [| reflexivity | | discriminate | exact Ht].
  - cbn [spliced map snd doc app]. now rewrite !app_nil_r, blockText_wrapped.
  - cbn [items_ok]. now rewrite block_ok_wrapped.
Qed.
End Merge.

Lemma EmbedContents_idempotent_witness :
  fst (EmbedContents "README.md" (bytes "doc")
         (oneFile "README.md" (embedText (bytes "doc"))))
  = embedText (bytes "doc").
Proof.
  rewrite (EmbedContents_idempotent "README.md" (bytes "doc")).
  - reflexivity.
  - unfold oneFile, store. cbn [files]. apply lookup_insert_eq.
  - reflexivity.
Defined.

Lemma EmbedContents_replaces_blocks_witness :
  fst (EmbedContents "README.md" (bytes "doc")
         (oneFile "README.md" (sampleLead ++ doc sampleItems)))
  = bytes "# Title" ++ [nl] ++ embedText (bytes "doc") ++ [nl]
    ++ bytes "middle" ++ [nl] ++ embedText (bytes "doc") ++ [nl]
    ++ bytes "end".
Proof.
  destruct (EmbedContents_replaces_blocks "README.md" (bytes "doc")
              sampleLead sampleItems
              (oneFile "README.md" (sampleLead ++ doc sampleItems)))
    as [Heq _].
  - unfold oneFile, store. cbn [files]. apply lookup_insert_eq.
  - reflexivity.
  - reflexivity.
  - discriminate.
  - reflexivity.
  - rewrite Heq. reflexivity.
Defined.

(** A file that does not name the keyword holds no marker. *)
Lemma noMarkers_free (data : text) : mentions data = false -> noMarkers data.
Proof.
  intros Hfree. split.
  - apply (find_free_end embedStandaloneRegex keyword eolEnd);
      [exact run_standalone | exact keyword_prefix_self | exact no_lt_keyword
      | exact Hfree].
  - apply (find_free_end embedStartRegex (keyword ++ bytes ":start")
             (scanFor endFn));
      [exact run_start | apply keyword_prefix | exact no_lt_start
      | exact Hfree].
Qed.

(* ===================================================================== *)
(** * Further properties of the reconciler                                 *)
(* ===================================================================== *)

Section Reconciler.
Implicit Types (t data b : text) (w : world) (path fileName : string).

Lemma CheckFile_result b path w :
  fst (CheckFile b path w)
  = match files w !! path with
    | Some (Regular c) =>
        if (fnv128 b =? fnv128 c)%Z then None else Some checkErr
    | Some (ReadFails d e) =>
        Some (Wrap ("failure while attempting to Check contents of "
                    +:+ path +:+ ": ")
                (Wrap "gomarkdoc: failed when checking documentation: "
                   (PathError "read" path e)))
    | Some (OpenFails e) =>
        Some (Wrap ("failed to open file " +:+ path +:+ " for checking: ")
                (PathError "open" path e))
    | None =>
        Some (Wrap ("failed to open file " +:+ path +:+ " for checking: ")
                (PathError "open" path ENOENT))
    end.
Proof.
  unfold CheckFile, bind, os_Open, Compare.
  destruct (files w !! path) as [[c | d e | e] |];
    cbn [delivered buffer failure]; try reflexivity.
  destruct (fnv128 b =? fnv128 c)%Z; reflexivity.
Qed.

(** X1: [CheckFile] reports the drift error exactly for a readable file
    whose digest differs from that of the rendered text, and no error
    exactly for a readable file with the same digest; a missing file, a file
    that cannot be opened and a file whose reading breaks off give other
    errors. *)
Theorem CheckFile_outcomes b path w :
  (fst (CheckFile b path w) = Some checkErr
   <-> exists c, files w !! path = Some (Regular c) /\ fnv128 b <> fnv128 c)
  /\ (fst (CheckFile b path w) = None
      <-> exists c, files w !! path = Some (Regular c) /\ fnv128 b = fnv128 c).
Proof.
  rewrite CheckFile_result.
  destruct (files w !! path) as [[c | d e | e] |].
  - destruct (Z.eqb_spec (fnv128 b) (fnv128 c)) as [Heq | Hne].
    + split; split; try discriminate; try (intros _; reflexivity).
      * intros (c' & [= <-] & Hne). now elim Hne.
      * intros _. now exists c.
    + split; split; try discriminate; try (intros _; reflexivity).
      * intros _. now exists c.
      * intros (c' & [= <-] & Heq). now elim Hne.
  - split; split; try discriminate; intros (c & [=] & _).
  - split; split; try discriminate; intros (c & [=] & _).
  - split; split; try discriminate; intros (c & [=] & _).
Qed.

(** Whatever it finds, [CheckFile] only opens the file. *)
Lemma CheckFile_world b path w :
  snd (CheckFile b path w) = log_event (EvOpen path) w.
Proof.
  unfold CheckFile, bind, os_Open, Compare.
  destruct (files w !! path) as [[c | d e | e] |];
    cbn [delivered buffer failure]; try reflexivity.
  destruct (fnv128 b =? fnv128 c)%Z; reflexivity.
Qed.

(** X2: a destination that differs from the rendered text in one byte is
    reported as drift. *)
Theorem CheckFile_one_byte_drift (u v : text) (x y : ascii) path w :
  files w !! path = Some (Regular (u ++ y :: v)) -> x <> y ->
  fst (CheckFile (u ++ x :: v) path w) = Some checkErr.
Proof.
  intros Hfile Hxy. rewrite CheckFile_result, Hfile.
  destruct (Z.eqb_spec (fnv128 (u ++ x :: v)) (fnv128 (u ++ y :: v)))
    as [Heq | _]; [| reflexivity].
  now apply fnv128_one_byte in Heq.
Qed.

(** The result of [filepath.Clean], and so of [filepath.Dir], is never the
    empty string. *)
Lemma filepath_Clean_nonempty path : filepath_Clean path <> ""%string.
Proof.
  unfold filepath_Clean. destruct (String.eqb path ""); [discriminate |].
  destruct (HasPrefix path "/"); [discriminate |].
  destruct (String.eqb_spec
              (Join (rev (fold_left (clean_elem false) (Split path "/") []))
                    "/") ""); [discriminate | assumption].
Qed.

Lemma filepath_Dir_nonempty fileName :
  String.eqb (filepath_Dir fileName) "" = false.
Proof. apply String.eqb_neq, filepath_Clean_nonempty. Qed.

Lemma WriteFile_ok fileName t w :
  writable w fileName ->
  WriteFile fileName t w
  = (None,
     store fileName t
       (log_event (EvWriteFile fileName t)
          (log_event (EvMkdirAll (filepath_Dir fileName)) w))).
Proof.
  intros [Hmk Hwr]. unfold WriteFile, bind, os_MkdirAll, ioutil_WriteFile.
  rewrite filepath_Dir_nonempty. cbn [negb]. rewrite Hmk.
  cbn [write_errno log_event]. rewrite Hwr. reflexivity.
Qed.

Lemma store_lookup fileName t w :
  files (store fileName t w) !! fileName = Some (Regular t).
Proof. unfold store. cbn [files]. apply lookup_insert_eq. Qed.

(** X3: when the folder can be made and the file can be written,
    [WriteFile] succeeds, the file then reads back as the text written, and a
    check of the same text against it passes. *)
Theorem WriteFile_then_read_and_check fileName t w :
  writable w fileName ->
  fst (WriteFile fileName t w) = None
  /\ fst (os_ReadFile fileName (snd (WriteFile fileName t w))) = inl t
  /\ fst (CheckFile t fileName (snd (WriteFile fileName t w))) = None.
Proof.
  intros Hw. rewrite (WriteFile_ok _ _ _ Hw). cbn [fst snd].
  split; [reflexivity |]. split.
  - unfold os_ReadFile. cbn [fst]. now rewrite store_lookup.
  - rewrite CheckFile_result, store_lookup. now rewrite Z.eqb_refl.
Qed.

(** X4: [WriteFile] always asks for the folder first, and when the folder
    cannot be made it returns that error without trying to write: the files
    are as before and the only effect is the attempt to make the folder. *)
Theorem WriteFile_folder_failure fileName t w (e : errno) :
  mkdir_errno w (filepath_Dir fileName) = Some e ->
  WriteFile fileName t w
  = (Some (Wrap ("failed to create folder " +:+ filepath_Dir fileName +:+ ": ")
             (PathError "mkdir" (filepath_Dir fileName) e)),
     log_event (EvMkdirAll (filepath_Dir fileName)) w).
Proof.
  intros Hmk. unfold WriteFile, bind, os_MkdirAll.
  rewrite filepath_Dir_nonempty. cbn [negb]. now rewrite Hmk.
Qed.

(** Whatever the file holds, [EmbedContents] only reads it. *)
Lemma EmbedContents_world fileName t w :
  snd (EmbedContents fileName t w) = log_event (EvReadFile fileName) w.
Proof.
  unfold EmbedContents, bind, os_ReadFile.
  destruct (files w !! fileName) as [[c | d e | e] |]; try reflexivity.
  destruct (ReplaceAllFunc embedStandaloneRegex c (embedText t)) as [d1 n1].
  destruct (ReplaceAllFunc embedStartRegex d1 (embedText t)) as [d2 n2].
  destruct (Nat.eqb (n1 + n2) 0); reflexivity.
Qed.

(** X5: when the destination is missing or cannot be read, the result of the
    merge is the wrapped text alone. *)
Theorem EmbedContents_unreadable fileName t w :
  (forall c, files w !! fileName <> Some (Regular c)) ->
  fst (EmbedContents fileName t w) = embedText t.
Proof.
  intros Hno. unfold EmbedContents, bind, os_ReadFile.
  destruct (files w !! fileName) as [[c | d e | e] |]; try reflexivity.
  now elim (Hno c).
Qed.

Lemma EmbedContents_plain fileName data t w :
  files w !! fileName = Some (Regular data) ->
  mentions data = false ->
  fst (EmbedContents fileName t w) = data ++ [nl; nl] ++ t.
Proof.
  intros Hfile Hfree. destruct (noMarkers_free data Hfree) as [H1 H2].
  unfold EmbedContents, bind, os_ReadFile. rewrite Hfile.
  rewrite (ReplaceAllFunc_none _ _ _ H1), (ReplaceAllFunc_none _ _ _ H2).
  reflexivity.
Qed.

Lemma spliced_ok t items :
  mentions t = false -> items_ok items = true ->
  items_ok (spliced t items) = true.
Proof. apply (items_ok_rewrite (fun _ => true)). Qed.

Lemma spliced_spliced t items : spliced t (spliced t items) = spliced t items.
Proof. unfold spliced. rewrite map_map. reflexivity. Qed.

Lemma spliced_nonempty t items : items <> [] -> spliced t items <> [].
Proof. now destruct items. Qed.

End Reconciler.

Lemma CheckFile_one_byte_drift_witness :
  fst (CheckFile (bytes "abc") "README.md" (oneFile "README.md" (bytes "abd")))
  = Some checkErr.
Proof.
  apply (CheckFile_one_byte_drift (bytes "ab") [] "c"%char "d"%char).
  - unfold oneFile, store. cbn [files]. apply lookup_insert_eq.
  - discriminate.
Defined.

Lemma WriteFile_then_read_and_check_witness :
  fst (CheckFile (bytes "doc") "docs/README.md"
         (snd (WriteFile "docs/README.md" (bytes "doc") emptyWorld))) = None.
Proof.
  apply (WriteFile_then_read_and_check "docs/README.md" (bytes "doc")
           emptyWorld).
  split; reflexivity.
Defined.

Lemma WriteFile_folder_failure_witness :
  WriteFile "docs/README.md" (bytes "doc") noFolderWorld
  = (Some (Wrap "failed to create folder docs: "
             (PathError "mkdir" "docs" EACCES)),
     log_event (EvMkdirAll "docs") noFolderWorld).
Proof.
  apply (WriteFile_folder_failure "docs/README.md" (bytes "doc") noFolderWorld
           EACCES).
  reflexivity.
Defined.

Lemma EmbedContents_unreadable_witness :
  fst (EmbedContents "README.md" (bytes "doc") emptyWorld)
  = embedText (bytes "doc").
Proof.
  apply EmbedContents_unreadable. intros c. discriminate.
Defined.

(* ===================================================================== *)
(** * Further properties of the loop over the destinations                 *)
(* ===================================================================== *)

Section Units.
Context {Package : Type}.
Variable Renderer : Type.
Variable Renderer_File :
  Renderer -> text -> text -> list Package -> text + error.
Variable out : Renderer.
Variables header footer : text.
Implicit Types (opts : CommandOptions) (w : world) (t data : text).
Implicit Types (fileName : string) (pkgs : list Package).
Implicit Types (order : list (string * list Package)).

Local Abbreviation unit_ opts := (writeUnit Renderer Renderer_File out header footer opts).
Local Abbreviation units_ opts := (writeUnits Renderer Renderer_File out header footer opts).

Lemma only_reads_refl w : only_reads w w.
Proof.
  split; [reflexivity |]. exists []. split; [now rewrite app_nil_r | constructor].
Qed.

Lemma only_reads_trans w1 w2 w3 :
  only_reads w1 w2 -> only_reads w2 w3 -> only_reads w1 w3.
Proof.
  intros [Hf1 (e1 & He1 & Hr1)] [Hf2 (e2 & He2 & Hr2)]. split; [congruence |].
  exists (e1 ++ e2). split.
  - now rewrite He2, He1, <- app_assoc.
  - now apply Forall_app.
Qed.

Lemma only_reads_log (ev : event) w :
  is_write ev = false -> only_reads w (log_event ev w).
Proof.
  intros Hev. split; [reflexivity |]. exists [ev]. split; [reflexivity |].
  now constructor.
Qed.

Lemma writeUnit_check_reads opts fileName pkgs w :
  Check opts = true ->
  only_reads w (snd (unit_ opts fileName pkgs w)).
Proof.
  intros Hcheck. unfold writeUnit.
  destruct (Renderer_File out header footer pkgs) as [t | err];
    [| apply only_reads_refl].
  unfold bind.
  destruct (Embed opts && negb (String.eqb fileName "")) eqn:Hembed.
  - apply andb_prop in Hembed as [_ Hname]. apply negb_true_iff in Hname.
    rewrite Hname, Hcheck.
    destruct (EmbedContents fileName t w) as [t' w1] eqn:Hmerge.
    assert (Hw1 : w1 = log_event (EvReadFile fileName) w)
      by (now rewrite <- (EmbedContents_world fileName t w), Hmerge).
    subst w1.
    apply (only_reads_trans _ (log_event (EvReadFile fileName) w));
      [now apply only_reads_log |].
    rewrite CheckFile_world. now apply only_reads_log.
  - unfold ret. destruct (String.eqb fileName "").
    + now apply only_reads_log.
    + rewrite Hcheck, CheckFile_world. now apply only_reads_log.
Qed.

Lemma writeUnits_check_only_reads opts order w :
  Check opts = true ->
  only_reads w (snd (units_ opts order w)).
Proof.
  intros Hcheck. revert w.
  induction order as [| [fileName pkgs] order IH]; intros w;
    [apply only_reads_refl |].
  cbn [writeUnits]. unfold bind.
  pose proof (writeUnit_check_reads opts fileName pkgs w Hcheck) as Hunit.
  destruct (unit_ opts fileName pkgs w) as [[err |] w1]; cbn [snd] in *;
    [exact Hunit |].
  apply (only_reads_trans _ w1); [exact Hunit | apply IH].
Qed.

(** X6: the loop stops at the first destination that fails: the
    destinations after it are not touched, and those before it were all done.
    Doing two lists of destinations one after the other is doing the first
    list and, if it did not fail, the second. *)
Theorem writeUnits_app opts order1 order2 w :
  writeUnits Renderer Renderer_File out header footer opts (order1 ++ order2) w
  = match writeUnits Renderer Renderer_File out header footer opts order1 w with
    | (Some err, w1) => (Some err, w1)
    | (None, w1) =>
        writeUnits Renderer Renderer_File out header footer opts order2 w1
    end.
Proof.
  revert w. induction order1 as [| [fileName pkgs] order1 IH]; intros w;
    [reflexivity |].
  cbn [app writeUnits]. unfold bind.
  destruct (unit_ opts fileName pkgs w) as [[err |] w1]; [reflexivity |].
  apply IH.
Qed.

Lemma writeUnit_merge opts fileName pkgs t w :
  Renderer_File out header footer pkgs = inl t ->
  Embed opts = true -> Check opts = false ->
  fileName <> ""%string -> writable w fileName ->
  unit_ opts fileName pkgs w
  = (None,
     store fileName (fst (EmbedContents fileName t w))
       (log_event (EvWriteFile fileName (fst (EmbedContents fileName t w)))
          (log_event (EvMkdirAll (filepath_Dir fileName))
             (log_event (EvReadFile fileName) w)))).
Proof.
  intros Hrender Hembed Hcheck Hname Hw. unfold writeUnit.
  rewrite Hrender, Hembed, Hcheck.
  apply String.eqb_neq in Hname. rewrite Hname. cbn [andb negb]. unfold bind.
  pose proof (EmbedContents_world fileName t w) as Hw1.
  destruct (EmbedContents fileName t w) as [t' w1]. cbn [fst snd] in *.
  subst w1. rewrite WriteFile_ok; [reflexivity | exact Hw].
Qed.

(** X7: merging into a file without markers is not stable.  In merge mode,
    for a file and a rendered text that do not name the keyword, the first run
    leaves the file with the text appended after a blank line and the second
    run appends the text once more. *)
Theorem writeUnit_merge_appends_again opts fileName pkgs t data w :
  Renderer_File out header footer pkgs = inl t ->
  Embed opts = true -> Check opts = false ->
  fileName <> ""%string -> writable w fileName ->
  files w !! fileName = Some (Regular data) ->
  mentions data = false -> mentions t = false ->
  let r1 := unit_ opts fileName pkgs w in
  let r2 := unit_ opts fileName pkgs (snd r1) in
  fst r1 = None /\ fst r2 = None
  /\ files (snd r1) !! fileName = Some (Regular (data ++ [nl; nl] ++ t))
  /\ files (snd r2) !! fileName
     = Some (Regular ((data ++ [nl; nl] ++ t) ++ [nl; nl] ++ t)).
Proof.
  intros Hrender Hembed Hcheck Hname Hw Hfile Hdata Ht.
  cbn zeta.
  rewrite (writeUnit_merge opts fileName pkgs t w) by assumption.
  rewrite (EmbedContents_plain fileName data t w Hfile Hdata).
  cbn [fst snd].
  set (w1 := store fileName (data ++ [nl; nl] ++ t) _).
  assert (Hw1 : writable w1 fileName) by exact Hw.
  assert (Hfile1 : files w1 !! fileName
                   = Some (Regular (data ++ [nl; nl] ++ t)))
    by apply store_lookup.
  assert (Hfree1 : mentions (data ++ [nl; nl] ++ t) = false).
  { cbn [app]. apply mentions_before_nl; [exact Hdata |].
    now rewrite !mentions_nl. }
  rewrite (writeUnit_merge opts fileName pkgs t w1) by assumption.
  rewrite (EmbedContents_plain fileName _ t w1 Hfile1 Hfree1).
  cbn [fst snd]. repeat split; try reflexivity; try exact Hfile1.
  apply store_lookup.
Qed.

(** X8: merging into a file with blocks is stable.  In merge mode, for a
    file made of texts that do not name the keyword and of one or more blocks
    on lines of their own, and a rendered text that does not name the keyword,
    the first run leaves the file with every block replaced by the wrapped
    text and the second run leaves it as the first did. *)
Theorem writeUnit_merge_stable opts fileName pkgs t lead items w :
  Renderer_File out header footer pkgs = inl t ->
  Embed opts = true -> Check opts = false ->
  fileName <> ""%string -> writable w fileName ->
  files w !! fileName = Some (Regular (lead ++ doc items)) ->
  lead_ok lead = true -> items_ok items = true -> items <> [] ->
  mentions t = false ->
  let r1 := unit_ opts fileName pkgs w in
  let r2 := unit_ opts fileName pkgs (snd r1) in
  fst r1 = None /\ fst r2 = None
  /\ files (snd r1) !! fileName = Some (Regular (lead ++ doc (spliced t items)))
  /\ files (snd r2) !! fileName = files (snd r1) !! fileName.
Proof.
  intros Hrender Hembed Hcheck Hname Hw Hfile Hlead Hitems Hne Ht.
  cbn zeta.
  rewrite (writeUnit_merge opts fileName pkgs t w) by assumption.
  rewrite (EmbedContents_doc fileName t lead items w) by assumption.
  cbn [fst snd].
  set (w1 := store fileName (lead ++ doc (spliced t items)) _).
  assert (Hw1 : writable w1 fileName) by exact Hw.
  assert (Hfile1 : files w1 !! fileName
                   = Some (Regular (lead ++ doc (spliced t items))))
    by apply store_lookup.
  rewrite (writeUnit_merge opts fileName pkgs t w1) by assumption.
  rewrite (EmbedContents_doc fileName t lead (spliced t items) w1);
    [| exact Hfile1 | exact Hlead | now apply spliced_ok
     | now apply spliced_nonempty | exact Ht].
  cbn [fst snd]. rewrite spliced_spliced.
  repeat split; try reflexivity; try exact Hfile1.
  now rewrite store_lookup.
Qed.

(** X9: verifying with merging passes on a merged file.  With both flags
    set, for a file in which every block already is the wrapped text, the
    file is read, merged in memory and compared, and no error is returned. *)
Theorem writeUnit_check_merged opts fileName pkgs t lead items w :
  Renderer_File out header footer pkgs = inl t ->
  Embed opts = true -> Check opts = true ->
  fileName <> ""%string ->
  files w !! fileName = Some (Regular (lead ++ doc (spliced t items))) ->
  lead_ok lead = true -> items_ok items = true -> items <> [] ->
  mentions t = false ->
  unit_ opts fileName pkgs w
  = (None, log_event (EvOpen fileName) (log_event (EvReadFile fileName) w)).
Proof.
  intros Hrender Hembed Hcheck Hname Hfile Hlead Hitems Hne Ht.
  unfold writeUnit. rewrite Hrender, Hembed, Hcheck.
  apply String.eqb_neq in Hname. rewrite Hname. cbn [andb negb]. unfold bind.
  rewrite (EmbedContents_doc fileName t lead (spliced t items) w);
    [| exact Hfile | exact Hlead | now apply spliced_ok
     | now apply spliced_nonempty | exact Ht].
  rewrite spliced_spliced.
  rewrite (surjective_pairing (CheckFile _ _ _)).
  rewrite CheckFile_world, CheckFile_result. cbn [files log_event].
  now rewrite Hfile, Z.eqb_refl.
Qed.

(** X10: a run that replaces a destination makes a later verification of it
    pass.  In replace mode the unit writes the rendered text; in verify mode,
    on the world that leaves, the same unit returns no error. *)
Theorem writeUnit_replace_then_check opts1 opts2 fileName pkgs t w :
  Renderer_File out header footer pkgs = inl t ->
  Embed opts1 = false -> Check opts1 = false ->
  Embed opts2 = false -> Check opts2 = true ->
  fileName <> ""%string -> writable w fileName ->
  fst (unit_ opts1 fileName pkgs w) = None
  /\ files (snd (unit_ opts1 fileName pkgs w)) !! fileName = Some (Regular t)
  /\ fst (unit_ opts2 fileName pkgs (snd (unit_ opts1 fileName pkgs w))) = None.
Proof.
  intros Hrender He1 Hc1 He2 Hc2 Hname Hw.
  apply String.eqb_neq in Hname.
  assert (H1 : unit_ opts1 fileName pkgs w
               = (None,
                  store fileName t
                    (log_event (EvWriteFile fileName t)
                       (log_event (EvMkdirAll (filepath_Dir fileName)) w)))).
  { unfold writeUnit. rewrite Hrender, He1, Hc1, Hname. cbn [andb].
    unfold bind, ret. now rewrite WriteFile_ok. }
  rewrite H1. cbn [fst snd]. split; [reflexivity |].
  split; [apply store_lookup |].
  unfold writeUnit. rewrite Hrender, He2, Hc2, Hname. cbn [andb].
  unfold bind, ret. rewrite CheckFile_result, store_lookup.
  now rewrite Z.eqb_refl.
Qed.
End Units.

Lemma writeUnit_merge_appends_again_witness :
  files (snd (writeUnit unit docRenderer tt [] [] (baseOptions false true)
                "a.md" [tt]
                (snd (writeUnit unit docRenderer tt [] []
                        (baseOptions false true) "a.md" [tt]
                        (oneFile "a.md" (bytes "intro"))))))
    !! "a.md"%string
  = Some (Regular ((bytes "intro" ++ [nl; nl] ++ bytes "doc")
                   ++ [nl; nl] ++ bytes "doc")).
Proof.
  apply (writeUnit_merge_appends_again unit docRenderer tt [] []
           (baseOptions false true) "a.md" [tt] (bytes "doc") (bytes "intro")
           (oneFile "a.md" (bytes "intro")));
    first [reflexivity | discriminate | (split; reflexivity)
          | apply store_lookup].
Defined.

Lemma writeUnit_merge_stable_witness :
  files (snd (writeUnit unit docRenderer tt [] [] (baseOptions false true)
                "a.md" [tt]
                (oneFile "a.md" (sampleLead ++ doc sampleItems))))
    !! "a.md"%string
  = Some (Regular (sampleLead ++ doc (spliced (bytes "doc") sampleItems))).
Proof.
  apply (writeUnit_merge_stable unit docRenderer tt [] []
           (baseOptions false true) "a.md" [tt] (bytes "doc") sampleLead
           sampleItems (oneFile "a.md" (sampleLead ++ doc sampleItems)));
    first [reflexivity | discriminate | (split; reflexivity)
          | apply store_lookup].
Defined.

Lemma writeUnit_check_merged_witness :
  fst (writeUnit unit docRenderer tt [] [] (baseOptions true true) "a.md" [tt]
         (oneFile "a.md"
            (sampleLead ++ doc (spliced (bytes "doc") sampleItems))))
  = None.
Proof.
  rewrite (writeUnit_check_merged unit docRenderer tt [] []
             (baseOptions true true) "a.md" [tt] (bytes "doc") sampleLead
             sampleItems);
    first [reflexivity | discriminate | (split; reflexivity)
          | apply store_lookup].
Defined.

Lemma writeUnit_replace_then_check_witness :
  fst (writeUnit unit docRenderer tt [] [] (baseOptions true false) "a.md" [tt]
         (snd (writeUnit unit docRenderer tt [] [] (baseOptions false false)
                 "a.md" [tt] emptyWorld)))
  = None.
Proof.
  apply (writeUnit_replace_then_check unit docRenderer tt [] []
           (baseOptions false false) (baseOptions true false) "a.md" [tt]
           (bytes "doc") emptyWorld);
    first [reflexivity | discriminate | (split; reflexivity)
          | apply store_lookup].
Defined.

(* ===================================================================== *)
(** * Further properties of GetSpecs                                       *)
(* ===================================================================== *)

Section Expansion.
Context {Package : Type}.
Implicit Types (ReadDir : string -> option (list FileInfo)).
Implicit Types (fuel : nat) (path p : string) (paths : list string).
Implicit Types (specs found : list (PackageSpec Package)).

Lemma expand_named ReadDir fuel path :
  HasSuffix path "/..." = false ->
  expand (Package := Package) ReadDir fuel path = Some [namedSpec path].
Proof. intros Hsuf. unfold expand. now rewrite Hsuf. Qed.

(** X11: arguments without the recursive marker expand without looking at
    the file system and without using fuel: one descriptor for each argument,
    in the order of the arguments, never a wildcard, named by the argument
    itself. *)
Theorem GetSpecs_named ReadDir fuel paths :
  Forall (fun path => HasSuffix path "/..." = false) paths ->
  GetSpecs (Package := Package) ReadDir fuel paths = Some (map namedSpec paths).
Proof.
  induction 1 as [| path paths Hpath _ IH]; [reflexivity |].
  cbn [GetSpecs map]. now rewrite expand_named, IH.
Qed.

(** X12: the descriptors of a list of arguments are those of its parts, one
    after the other. *)
Theorem GetSpecs_app ReadDir fuel paths1 paths2 :
  GetSpecs (Package := Package) ReadDir fuel (paths1 ++ paths2)
  = match GetSpecs ReadDir fuel paths1, GetSpecs ReadDir fuel paths2 with
    | Some specs1, Some specs2 => Some (specs1 ++ specs2)
    | _, _ => None
    end.
Proof.
  induction paths1 as [| path paths1 IH].
  - cbn [app GetSpecs]. destruct (GetSpecs ReadDir fuel paths2); reflexivity.
  - cbn [app GetSpecs]. rewrite IH.
    destruct (expand ReadDir fuel path) as [here |]; [| reflexivity].
    destruct (GetSpecs ReadDir fuel paths1) as [specs1 |]; [| reflexivity].
    destruct (GetSpecs ReadDir fuel paths2) as [specs2 |]; [| reflexivity].
    now rewrite app_assoc.
Qed.

Lemma IsLocalPath_cwd (s : string) : IsLocalPath (cwdPathPrefix +:+ s) = true.
Proof.
  unfold IsLocalPath, HasPrefix, cwdPathPrefix.
  change ("./" +:+ s)%string with (String "." (String "/" s)).
  cbn. now destruct s.
Qed.

Lemma wildcardSpec_wf p :
  IsLocalPath p = true -> spec_wf (wildcardSpec (Package := Package) p).
Proof.
  intros Hp. unfold spec_wf, wildcardSpec. cbn.
  repeat split; try reflexivity; try (now symmetry); discriminate.
Qed.

Lemma subPaths_local p (entries : list FileInfo) :
  Forall (fun sub => IsLocalPath sub = true) (subPaths p entries).
Proof.
  unfold subPaths. induction entries as [| f entries IH]; [constructor |].
  cbn [omap list_omap]. destruct (IsIgnoredDir (Name f)); [exact IH |].
  destruct (IsDir f); [| exact IH].
  constructor; [| exact IH].
  destruct (IsLocalPath (filepath_Join p (Name f))) eqn:Hloc;
    [exact Hloc | apply IsLocalPath_cwd].
Qed.

Lemma walk_wf ReadDir fuel (queue : list string) found :
  walk (Package := Package) ReadDir fuel queue = Some found ->
  Forall spec_wf found.
Proof.
  revert queue found. induction fuel as [| fuel IH]; intros queue found.
  - destruct queue; [intros [= <-]; constructor | discriminate].
  - destruct queue as [| p queue]; [intros [= <-]; constructor |].
    cbn [walk]. destruct (ReadDir p) as [entries |]; [| apply IH].
    destruct (walk ReadDir fuel (queue ++ subPaths p entries)) as [later |] eqn:Hw;
      [| discriminate].
    intros [= <-]. apply Forall_app. split; [| now apply (IH _ _ Hw)].
    apply Forall_map.
    eapply Forall_impl; [apply subPaths_local |].
    intros sub Hsub. now apply wildcardSpec_wf.
Qed.

Lemma namedSpec_wf path : spec_wf (namedSpec (Package := Package) path).
Proof.
  unfold spec_wf, namedSpec. cbn.
  destruct (IsLocalPath path) eqn:Hloc; repeat split; try reflexivity;
    try discriminate; now symmetry.
Qed.

Lemma expand_wf ReadDir fuel path specs :
  expand (Package := Package) ReadDir fuel path = Some specs ->
  Forall spec_wf specs.
Proof.
  unfold expand. destruct (HasSuffix path "/..."); cbn [negb].
  - destruct (IsLocalPath (substring 0 (String.length path - 3) path)) eqn:Hloc;
      cbn [negb].
    + destruct (walk ReadDir fuel _) as [found |] eqn:Hw; [| discriminate].
      intros [= <-]. constructor; [now apply wildcardSpec_wf |].
      now apply (walk_wf _ _ _ _ Hw).
    + intros [= <-]. constructor; [| constructor].
      unfold spec_wf, literalSpec. cbn.
      repeat split; try reflexivity; discriminate.
  - intros [= <-]. constructor; [apply namedSpec_wf | constructor].
Qed.

(** X13: every descriptor [GetSpecs] returns is well formed: its flag
    [IsLocal] tells whether its directory is a local path (the paths that
    [filepath.Join] strips of their prefix get the prefix back), a local
    descriptor is named by its directory, any other has the directory ".", a
    wildcard descriptor is local, and neither destination nor model is set. *)
Theorem GetSpecs_wf ReadDir fuel paths specs :
  GetSpecs (Package := Package) ReadDir fuel paths = Some specs ->
  Forall spec_wf specs.
Proof.
  revert specs. induction paths as [| path paths IH]; intros specs.
  - intros [= <-]. constructor.
  - cbn [GetSpecs].
    destruct (expand ReadDir fuel path) as [here |] eqn:Hhere; [| discriminate].
    destruct (GetSpecs ReadDir fuel paths) as [later |]; [| discriminate].
    intros [= <-]. apply Forall_app. split.
    + now apply (expand_wf _ _ _ _ Hhere).
    + now apply IH.
Qed.

(** X14: a recursive argument whose directory cannot be read yields the
    wildcard descriptor of that directory alone, and no error. *)
Theorem GetSpecs_unreadable_root ReadDir fuel path :
  HasSuffix path "/..." = true ->
  IsLocalPath (substring 0 (String.length path - 3) path) = true ->
  ReadDir (substring 0 (String.length path - 3) path) = None ->
  GetSpecs (Package := Package) ReadDir (S fuel) [path]
  = Some [wildcardSpec (substring 0 (String.length path - 3) path)].
Proof.
  intros Hsuf Hloc Hread. cbn [GetSpecs]. unfold expand.
  rewrite Hsuf, Hloc. cbn [negb walk]. rewrite Hread.
  destruct fuel; reflexivity.
Qed.

Lemma subPaths_followed p (entries : list FileInfo) :
  subPaths p entries
  = map (fun name =>
           if negb (IsLocalPath (filepath_Join p name))
           then cwdPathPrefix +:+ filepath_Join p name
           else filepath_Join p name)
        (followed entries).
Proof.
  unfold subPaths, followed. induction entries as [| f entries IH];
    [reflexivity |].
  cbn [omap list_omap map]. destruct (IsIgnoredDir (Name f)); [exact IH |].
  destruct (IsDir f); [| exact IH].
  cbn [map]. now rewrite <- IH.
Qed.

Lemma walk_followed ReadDir1 ReadDir2 fuel (queue : list string) :
  (forall p, option_map followed (ReadDir1 p) = option_map followed (ReadDir2 p)) ->
  walk (Package := Package) ReadDir1 fuel queue = walk ReadDir2 fuel queue.
Proof.
  intros Hsame. revert queue. induction fuel as [| fuel IH]; intros queue;
    [reflexivity |].
  destruct queue as [| p queue]; [reflexivity |]. cbn [walk].
  specialize (Hsame p).
  destruct (ReadDir1 p) as [e1 |], (ReadDir2 p) as [e2 |];
    try discriminate; [| apply IH].
  cbn [option_map] in Hsame. injection Hsame as Hsame.
  rewrite !subPaths_followed, Hsame, IH. reflexivity.
Qed.

(** X15: the expansion depends only on the sub-directories that are not
    ignored: two directory readers that agree on those, directory by
    directory, give the same descriptors, whatever plain files and ignored
    entries they list. *)
Theorem GetSpecs_followed ReadDir1 ReadDir2 fuel paths :
  (forall p, option_map followed (ReadDir1 p) = option_map followed (ReadDir2 p)) ->
  GetSpecs (Package := Package) ReadDir1 fuel paths = GetSpecs ReadDir2 fuel paths.
Proof.
  intros Hsame. induction paths as [| path paths IH]; [reflexivity |].
  cbn [GetSpecs]. rewrite IH. unfold expand.
  now rewrite (walk_followed ReadDir1 ReadDir2 fuel _ Hsame).
Qed.
End Expansion.

Lemma GetSpecs_named_witness :
  GetSpecs (Package := unit) unreadable 0 ["./a"%string; "encoding/json"%string]
  = Some [mkSpec "./a" "./a" false true "" None;
          mkSpec "." "encoding/json" false false "" None].
Proof.
  apply (GetSpecs_named unreadable 0 ["./a"%string; "encoding/json"%string]).
  repeat constructor.
Defined.

Lemma GetSpecs_wf_witness :
  Forall (spec_wf (Package := unit))
    [mkSpec "./pkgA" "./pkgA" false true "" None;
     mkSpec "./pkgB/" "./pkgB/" true true "" None;
     mkSpec "./pkgB/inner" "./pkgB/inner" true true "" None].
Proof.
  apply (GetSpecs_wf scenarioDir 2 ["./pkgA"%string; "./pkgB/..."%string]).
  reflexivity.
Defined.

Lemma GetSpecs_unreadable_root_witness :
  GetSpecs (Package := unit) unreadable 1 ["./gone/..."%string]
  = Some [mkSpec "./gone/" "./gone/" true true "" None].
Proof.
  apply (GetSpecs_unreadable_root unreadable 0 "./gone/..."); reflexivity.
Defined.

Lemma GetSpecs_followed_witness :
  GetSpecs (Package := unit) scenarioDir 2 ["./pkgB/..."%string]
  = GetSpecs scenarioDir' 2 ["./pkgB/..."%string].
Proof.
  apply GetSpecs_followed. intros p. unfold scenarioDir, scenarioDir'.
  destruct (String.eqb p "./pkgB/"); [reflexivity |].
  destruct (String.eqb p "./pkgB/inner"); [reflexivity |].
  destruct (String.eqb p "./pkgB/.git"); reflexivity.
Defined.

(* ===================================================================== *)
(** * Further properties of DefaultTags                                    *)
(* ===================================================================== *)

Section TagsFallback.
Open Scope string_scope.
Implicit Types (s v f cur : string).





Lemma Split_nonempty s (sep : ascii) : Split s sep <> [].
Proof.
  destruct s as [| c s]; [discriminate |]. cbn [Split].
  destruct (Ascii.eqb c sep); [discriminate |].
  destruct (Split s sep); discriminate.
Qed.




(** X17: when GOFLAGS is set, [DefaultTags] returns the empty list exactly
    when the flags do not parse; a string that parses always yields at least
    one tag, possibly the empty one. *)
Theorem DefaultTags_empty_iff f :
  DefaultTags (Some f) = []
  <-> exists err, FlagSet_Parse "" (Fields f) = inr err.
Proof.
  unfold DefaultTags.
  destruct (FlagSet_Parse "" (Fields f)) as [tags | err]; split.
  - intros Hnil. now apply Split_nonempty in Hnil.
  - intros [err [=]].
  - intros _. now exists err.
  - reflexivity.
Qed.



End TagsFallback.



(* ===================================================================== *)
(** * Further properties of ResolveOutput, LoadPackages and RunCommand     *)
(* ===================================================================== *)

Section Pipeline.
Context {Package : Type}.
Variable Template : Type.
Variable ParseTemplate : string -> Template + error.
Variable Execute : Template -> PackageSpec Package -> string + error.
Variable BuildPackage : Type.
Variable ImportDir : string -> list string -> BuildPackage + error.
Variable Import : string -> string -> list string -> BuildPackage + error.
Variable Getwd : string + error.
Variable NewPackageFromBuild : BuildPackage -> CommandOptions -> Package + error.
Variable ReadDir : string -> option (list FileInfo).
Variable Renderer : Type.
Variable NewRenderer : CommandOptions -> IO (Renderer + error).
Variable Renderer_File :
  Renderer -> text -> text -> list Package -> text + error.
Implicit Types (spec : PackageSpec Package) (specs : list (PackageSpec Package)).
Implicit Types (tmpl : Template) (opts : CommandOptions).

Local Abbreviation resolve := (ResolveOutput Template Execute).
Local Abbreviation getBuild := (GetBuildPackage BuildPackage ImportDir Import Getwd).
Local Abbreviation load :=
  (LoadPackages BuildPackage ImportDir Import Getwd NewPackageFromBuild).

(** X19: when [ResolveOutput] succeeds, every descriptor keeps its place and
    all its fields but the destination, and its destination is empty exactly
    when the template rendered the empty string for it; any other rendering
    is stored cleaned, and cleaning never yields the empty string. *)
Theorem ResolveOutput_destinations specs specs' tmpl :
  resolve specs tmpl = (specs', None) ->
  Forall2
    (fun spec spec' =>
       exists rendered,
         Execute tmpl spec = inl rendered
         /\ spec' = setOutputFile spec (OutputFile spec')
         /\ (OutputFile spec' = ""%string <-> rendered = ""%string)
         /\ (rendered <> ""%string -> OutputFile spec' = filepath_Clean rendered))
    specs specs'.
Proof.
  revert specs'. induction specs as [| spec specs IH]; intros specs'.
  - intros [= <-]. constructor.
  - cbn [ResolveOutput].
    destruct (Execute tmpl spec) as [rendered | err] eqn:Hexec; [| discriminate].
    destruct (resolve specs tmpl) as [rest err'] eqn:Hrest.
    intros [= <- ->]. constructor; [| now apply IH].
    exists rendered. split; [exact Hexec |].
    destruct (String.eqb_spec rendered "") as [-> | Hne]; cbn.
    + repeat split; try reflexivity. intros Hne. now elim Hne.
    + repeat split; try reflexivity.
      * intros Hclean. now apply filepath_Clean_nonempty in Hclean.
      * intros ->. now elim Hne.
Qed.

(** X20: [ResolveOutput] fails exactly when the template fails on some
    descriptor, and the error returned is that of the first such
    descriptor. *)
Theorem ResolveOutput_first_error specs tmpl (err : error) :
  snd (resolve specs tmpl) = Some err
  <-> exists before spec later,
        specs = before ++ spec :: later
        /\ Forall (fun s => exists rendered, Execute tmpl s = inl rendered) before
        /\ Execute tmpl spec = inr err.
Proof.
  induction specs as [| spec specs IH].
  - split; [discriminate |]. intros (before & s & later & Heq & _).
    now destruct before.
  - cbn [ResolveOutput].
    destruct (Execute tmpl spec) as [rendered | err0] eqn:Hexec.
    + destruct (resolve specs tmpl) as [rest err'] eqn:Hrest. cbn [snd] in *.
      rewrite IH. split.
      * intros (before & s & later & -> & Hbefore & Hs).
        exists (spec :: before), s, later. repeat split; try assumption.
        constructor; [now exists rendered | exact Hbefore].
      * intros (before & s & later & Heq & Hbefore & Hs).
        destruct before as [| s0 before]; cbn [app] in Heq;
          injection Heq as <- ->; [congruence |].
        exists before, s, later. repeat split; try assumption.
        now inversion Hbefore.
    + cbn [snd]. split.
      * intros [= <-]. exists [], spec, specs. repeat split; [constructor | exact Hexec].
      * intros (before & s & later & Heq & Hbefore & Hs).
        destruct before as [| s0 before]; cbn [app] in Heq;
          injection Heq as <- ->; [congruence |].
        inversion Hbefore as [| ? ? [rendered Hr] _]. congruence.
Qed.

(** X21: a package that does not load is reported by its path alone: for a
    local path the error names the directory, for any other path the import
    path, and the error of the loader itself is dropped; only a failure to
    find the working directory is passed on as it is. *)
Theorem GetBuildPackage_errors (path : string) (tags : list string) (err : error) :
  getBuild path tags = inr err ->
  (IsLocalPath path = true
   /\ err = ErrorString ("gomarkdoc: invalid package in directory: " +:+ path))
  \/ (IsLocalPath path = false
      /\ (Getwd = inr err
          \/ err = ErrorString ("gomarkdoc: invalid package at import path: "
                                +:+ path))).
Proof.
  unfold GetBuildPackage. destruct (IsLocalPath path).
  - destruct (ImportDir path tags); [discriminate |]. intros [= <-]. now left.
  - intros Herr. right. split; [reflexivity |]. destruct Getwd as [wd | e].
    + destruct (Import path wd tags); [discriminate |].
      injection Herr as <-. now right.
    + injection Herr as <-. now left.
Qed.

(** X22: [LoadPackages] succeeds exactly when every descriptor either loads
    and builds its model or is a wildcard whose package does not load; a
    wildcard whose package loads but whose model cannot be built is fatal like
    any other. *)
Theorem LoadPackages_succeeds_iff specs opts :
  snd (load specs opts) = None
  <-> Forall (loadable getBuild NewPackageFromBuild opts) specs.
Proof.
  induction specs as [| spec specs IH]; [split; [constructor | reflexivity] |].
  cbn [LoadPackages]. unfold loadable at 1.
  destruct (getBuild (ImportPath spec) (Tags opts)) as [bp | err] eqn:Hbuild.
  - destruct (NewPackageFromBuild bp opts) as [pkg | err] eqn:Hnew.
    + destruct (load specs opts) as [rest err']. cbn [snd] in *. rewrite IH.
      split.
      * intros Hall. constructor; [| exact Hall].
        unfold loadable. rewrite Hbuild. now exists pkg.
      * intros Hall. now inversion Hall.
    + cbn [snd]. split; [discriminate |]. intros Hall.
      inversion Hall as [| ? ? Hspec _]. unfold loadable in Hspec.
      rewrite Hbuild in Hspec. destruct Hspec as [pkg Hpkg]. congruence.
  - destruct (IsWildcard spec) eqn:Hwild.
    + destruct (load specs opts) as [rest err']. cbn [snd] in *. rewrite IH.
      split.
      * intros Hall. constructor; [| exact Hall].
        unfold loadable. now rewrite Hbuild.
      * intros Hall. now inversion Hall.
    + cbn [snd]. split; [discriminate |]. intros Hall.
      inversion Hall as [| ? ? Hspec _]. unfold loadable in Hspec.
      rewrite Hbuild in Hspec. congruence.
Qed.

(** X23: when [LoadPackages] succeeds, every descriptor keeps its place and
    all its fields but the model; a descriptor whose package loaded holds the
    model built from it, and a wildcard whose package did not load is left as
    it was. *)
Theorem LoadPackages_models specs specs' opts :
  load specs opts = (specs', None) ->
  Forall2
    (fun spec spec' =>
       match getBuild (ImportPath spec) (Tags opts) with
       | inl buildPkg =>
           exists pkg,
             NewPackageFromBuild buildPkg opts = inl pkg
             /\ spec' = setPkg spec pkg
       | inr _ => IsWildcard spec = true /\ spec' = spec
       end)
    specs specs'.
Proof.
  revert specs'. induction specs as [| spec specs IH]; intros specs'.
  - intros [= <-]. constructor.
  - cbn [LoadPackages].
    destruct (getBuild (ImportPath spec) (Tags opts)) as [bp | err] eqn:Hbuild.
    + destruct (NewPackageFromBuild bp opts) as [pkg | err] eqn:Hnew;
        [| discriminate].
      destruct (load specs opts) as [rest err'].
      intros [= <- ->]. constructor; [| now apply IH].
      rewrite Hbuild. now exists pkg.
    + destruct (IsWildcard spec) eqn:Hwild; [| discriminate].
      destruct (load specs opts) as [rest err'].
      intros [= <- ->]. constructor; [| now apply IH].
      now rewrite Hbuild.
Qed.

(** X24: descriptors without a model make no unit: if no descriptor holds a
    model, the map of [WriteOutput] is empty and its second loop has nothing
    to visit, in whatever order. *)
Theorem groupSpecs_no_models specs (order : list (string * list Package)) :
  Forall (fun spec => Pkg spec = None) specs ->
  range_order (groupSpecs specs) order ->
  order = [].
Proof.
  intros Hnone Horder.
  assert (Hempty : groupSpecs specs = ∅).
  { clear Horder. apply map_eq. intros d. rewrite groupSpecs_lookup, lookup_empty.
    replace (pkgsFor d specs) with (@nil Package); [reflexivity |].
    induction Hnone as [| spec specs Hspec _ IH]; [reflexivity |].
    rewrite pkgsFor_cons, Hspec. exact IH. }
  unfold range_order in Horder. rewrite Hempty, map_to_list_empty in Horder.
  now apply Permutation_nil_r in Horder.
Qed.

(** X25: an explicitly named local directory that holds no package stops
    the run before anything is rendered, read or written: the run returns the
    error that names the directory and leaves the world as it was. *)
Theorem RunCommand_named_directory_fails (fuel : nat)
    (order : list (string * list Package)) (path : string) opts tmpl
    (rendered : string) (cause : error) (w : world) :
  HasSuffix path "/..." = false ->
  IsLocalPath path = true ->
  ParseTemplate (Output opts) = inl tmpl ->
  Execute tmpl (namedSpec path) = inl rendered ->
  ImportDir path (Tags opts) = inr cause ->
  RunCommand_in Template ParseTemplate Execute BuildPackage ImportDir Import
    Getwd NewPackageFromBuild ReadDir Renderer NewRenderer Renderer_File
    fuel order [path] opts w
  = Some (Some (ErrorString ("gomarkdoc: invalid package in directory: "
                             +:+ path)), w).
Proof.
  intros Hsuf Hloc Hparse Hexec Himport. unfold RunCommand_in.
  rewrite Hparse.
  cbn [GetSpecs]. rewrite (expand_named ReadDir fuel path) by assumption.
  cbn [app map ResolveOutput]. rewrite Hexec.
  destruct (String.eqb rendered ""); cbn [LoadPackages ImportPath setOutputFile
    namedSpec IsWildcard]; unfold GetBuildPackage; now rewrite Hloc, Himport.
Qed.
End Pipeline.

Lemma ResolveOutput_destinations_witness :
  Forall2
    (fun spec spec' =>
       exists rendered,
         dirTemplate tt spec = inl rendered
         /\ spec' = setOutputFile spec (OutputFile spec')
         /\ (OutputFile spec' = ""%string <-> rendered = ""%string)
         /\ (rendered <> ""%string -> OutputFile spec' = filepath_Clean rendered))
    [namedSpec "./a"] [mkSpec "./a" "./a" false true "a/README.md" None].
Proof.
  apply (ResolveOutput_destinations unit dirTemplate [namedSpec "./a"] _ tt).
  reflexivity.
Defined.

Lemma GetBuildPackage_errors_witness :
  (IsLocalPath "./x" = true
   /\ ErrorString "gomarkdoc: invalid package in directory: ./x"
      = ErrorString ("gomarkdoc: invalid package in directory: " +:+ "./x"))
  \/ (IsLocalPath "./x" = false
      /\ (inl "/wd"%string
          = inr (ErrorString "gomarkdoc: invalid package in directory: ./x")
          \/ ErrorString "gomarkdoc: invalid package in directory: ./x"
             = ErrorString ("gomarkdoc: invalid package at import path: "
                            +:+ "./x"))).
Proof.
  apply (GetBuildPackage_errors unit noPackage noPackageAt (inl "/wd"%string)
           "./x" []).
  reflexivity.
Defined.

Lemma LoadPackages_models_witness :
  Forall2
    (fun spec spec' =>
       match GetBuildPackage unit noPackage noPackageAt (inl "/wd"%string)
               (ImportPath spec) (Tags (baseOptions false false)) with
       | inl buildPkg =>
           exists pkg,
             buildUnit buildPkg (baseOptions false false) = inl pkg
             /\ spec' = setPkg spec pkg
       | inr _ => IsWildcard spec = true /\ spec' = spec
       end)
    [wildcardSpec (Package := unit) "./x"] [wildcardSpec "./x"].
Proof.
  apply (LoadPackages_models unit noPackage noPackageAt (inl "/wd"%string)
           buildUnit).
  reflexivity.
Defined.

Lemma groupSpecs_no_models_witness :
  map_to_list (groupSpecs [wildcardSpec (Package := unit) "./x"]) = [].
Proof.
  apply (groupSpecs_no_models [wildcardSpec "./x"]).
  - repeat constructor.
  - unfold range_order. reflexivity.
Defined.

Lemma RunCommand_named_directory_fails_witness :
  RunCommand_in unit parseAny dirTemplate unit noPackage noPackageAt
    (inl "/wd"%string) buildUnit unreadable unit unitRenderer docRenderer
    0 [] ["./nonexistant"%string] (baseOptions false false) emptyWorld
  = Some (Some (ErrorString
                  "gomarkdoc: invalid package in directory: ./nonexistant"),
          emptyWorld).
Proof.
  apply (RunCommand_named_directory_fails unit parseAny dirTemplate unit
           noPackage noPackageAt (inl "/wd"%string) buildUnit unreadable unit
           unitRenderer docRenderer 0 [] "./nonexistant"
           (baseOptions false false) tt "./nonexistant/README.md"
           (ErrorString "no Go files") emptyWorld);
    reflexivity.
Defined.

(* ===================================================================== *)
(** * Further properties of WriteOutput                                    *)
(* ===================================================================== *)

Section WholeRun.
Context {Package : Type}.
Variable Renderer : Type.
Variable NewRenderer : CommandOptions -> IO (Renderer + error).
Variable Renderer_File :
  Renderer -> text -> text -> list Package -> text + error.
Implicit Types (opts : CommandOptions) (w : world).
Implicit Types (order : list (string * list Package)).

Local Abbreviation writeAll :=
  (WriteOutput_in Renderer NewRenderer Renderer_File).

Lemma os_ReadFile_reads (path : string) w :
  only_reads w (snd (os_ReadFile path w)).
Proof. unfold os_ReadFile. cbn [snd]. now apply only_reads_log. Qed.

Lemma ResolveHeader_reads opts w : only_reads w (snd (ResolveHeader opts w)).
Proof.
  unfold ResolveHeader.
  destruct (negb (Nat.eqb (length (Header opts)) 0)); [apply only_reads_refl |].
  destruct (negb (String.eqb (HeaderFile opts) "")); [| apply only_reads_refl].
  unfold bind, os_ReadFile.
  destruct (files w !! HeaderFile opts) as [[c | d e | e] |];
    now apply only_reads_log.
Qed.

Lemma ResolveFooter_reads opts w : only_reads w (snd (ResolveFooter opts w)).
Proof.
  unfold ResolveFooter.
  destruct (negb (Nat.eqb (length (Footer opts)) 0)); [apply only_reads_refl |].
  destruct (negb (String.eqb (FooterFile opts) "")); [| apply only_reads_refl].
  unfold bind, os_ReadFile.
  destruct (files w !! FooterFile opts) as [[c | d e | e] |];
    now apply only_reads_log.
Qed.

(** X26: a run in verify mode never makes a folder and never writes a file,
    whatever the destinations, the header and footer options, and whether or
    not merging is asked for too.  When making the renderer changes no file,
    the files after the run are as before, and every effect recorded is an
    opening, a reading or an output. *)
Theorem WriteOutput_check_reads order opts w :
  Check opts = true ->
  only_reads w (snd (NewRenderer opts w)) ->
  only_reads w (snd (writeAll order opts w)).
Proof.
  intros Hcheck Hnew. unfold WriteOutput_in, bind.
  destruct (NewRenderer opts w) as [[out | err] w1]; cbn [snd] in Hnew;
    [| exact Hnew].
  apply (only_reads_trans _ w1); [exact Hnew |].
  pose proof (ResolveHeader_reads opts w1) as Hheader.
  destruct (ResolveHeader opts w1) as [[header | err] w2]; cbn [snd] in Hheader;
    [| exact Hheader].
  apply (only_reads_trans _ w2); [exact Hheader |].
  pose proof (ResolveFooter_reads opts w2) as Hfooter.
  destruct (ResolveFooter opts w2) as [[footer | err] w3]; cbn [snd] in Hfooter;
    [| exact Hfooter].
  apply (only_reads_trans _ w3); [exact Hfooter |].
  now apply writeUnits_check_only_reads.
Qed.

(** X27: a header file that does not exist stops the run before any
    destination is looked at.  With no inline header and a header file that
    is missing, the run returns the error of the reading, wrapped, and its
    only effect after making the renderer is that one reading, whatever the
    destinations are. *)
Theorem WriteOutput_header_missing order opts (out : Renderer) w w1 :
  NewRenderer opts w = (inl out, w1) ->
  Header opts = [] -> HeaderFile opts <> ""%string ->
  files w1 !! HeaderFile opts = None ->
  writeAll order opts w
  = (Some (Wrap "gomarkdoc: couldn't resolve Header file: "
             (PathError "open" (HeaderFile opts) ENOENT)),
     log_event (EvReadFile (HeaderFile opts)) w1).
Proof.
  intros Hnew Hinline Hname Hfile. unfold WriteOutput_in, bind.
  rewrite Hnew. unfold ResolveHeader. rewrite Hinline.
  apply String.eqb_neq in Hname. rewrite Hname. cbn [length Nat.eqb negb].
  unfold bind, os_ReadFile. now rewrite Hfile.
Qed.
End WholeRun.

Lemma WriteOutput_check_reads_witness :
  only_reads (oneFile "a.md" (bytes "doc"))
    (snd (WriteOutput_in unit unitRenderer docRenderer
            [("a.md"%string, [tt]); (""%string, [tt]); ("b.md"%string, [tt])]
            (baseOptions true true) (oneFile "a.md" (bytes "doc")))).
Proof.
  apply (WriteOutput_check_reads unit unitRenderer docRenderer).
  - reflexivity.
  - apply only_reads_refl.
Defined.

Lemma WriteOutput_header_missing_witness :
  WriteOutput_in unit unitRenderer docRenderer [("a.md"%string, [tt])]
    headerOptions emptyWorld
  = (Some (Wrap "gomarkdoc: couldn't resolve Header file: "
             (PathError "open" "header.md" ENOENT)),
     log_event (EvReadFile "header.md") emptyWorld).
Proof.
  apply (WriteOutput_header_missing unit unitRenderer docRenderer
           [("a.md"%string, [tt])] headerOptions tt emptyWorld emptyWorld).
  - reflexivity.
  - reflexivity.
  - discriminate.
  - reflexivity.
Defined.

(* ===================================================================== *)
(** * Properties of ResolveOverrides                                       *)
(* ===================================================================== *)

Section Overrides.
Implicit Types (opts : CommandOptions) (w : world).
Implicit Types (contentOrder fileOrder : list (string * string)).
Implicit Types (overrides : list RendererOption).

Lemma fileOverrides_reads opts fileOrder overrides w :
  (forall name f, (name, f) ∈ fileOrder ->
                  TemplateFileOverrides opts !! name = Some f) ->
  files (snd (fileOverrides opts fileOrder overrides w)) = files w
  /\ exists paths,
       effects (snd (fileOverrides opts fileOrder overrides w))
       = effects w ++ map EvReadFile paths
       /\ Forall (fun f => exists name,
                    TemplateFileOverrides opts !! name = Some f
                    /\ TemplateOverrides opts !! name = None) paths.
Proof.
  revert overrides w.
  induction fileOrder as [| [name f] fileOrder IH]; intros overrides w Hin.
  - split; [reflexivity |]. exists []. split; [| constructor].
    cbn [fileOverrides ret snd map]. now rewrite app_nil_r.
  - assert (Hrest : forall name' f', (name', f') ∈ fileOrder ->
                      TemplateFileOverrides opts !! name' = Some f')
      by (intros name' f' Hel; apply Hin; now right).
    cbn [fileOverrides].
    destruct (TemplateOverrides opts !! name) as [s |] eqn:Hcontent;
      [now apply IH |].
    unfold bind, os_ReadFile.
    assert (Hhere : exists name0,
               TemplateFileOverrides opts !! name0 = Some f
               /\ TemplateOverrides opts !! name0 = None)
      by (exists name; split; [apply Hin; now left | exact Hcontent]).
    destruct (files w !! f) as [[c | d e | e] |].
    + destruct (IH (overrides ++ [WithTemplateOverride name c])
                  (log_event (EvReadFile f) w) Hrest)
        as [Hfiles (paths & Heff & Hpaths)].
      split; [exact Hfiles |]. exists (f :: paths). split.
      * rewrite Heff. cbn [log_event effects map]. now rewrite <- app_assoc.
      * now constructor.
    + split; [reflexivity |]. exists [f]. split; [reflexivity |].
      now repeat constructor.
    + split; [reflexivity |]. exists [f]. split; [reflexivity |].
      now repeat constructor.
    + split; [reflexivity |]. exists [f]. split; [reflexivity |].
      now repeat constructor.
Qed.

Lemma fileOverrides_result opts fileOrder overrides overrides' w w' :
  (forall name f, (name, f) ∈ fileOrder ->
                  TemplateFileOverrides opts !! name = Some f) ->
  fileOverrides opts fileOrder overrides w = (inl overrides', w') ->
  exists read : list (string * text),
    overrides'
    = overrides
      ++ map (fun e => WithTemplateOverride (fst e) (snd e)) read
    /\ Forall (fun e =>
                 TemplateOverrides opts !! fst e = None
                 /\ exists f, TemplateFileOverrides opts !! fst e = Some f
                              /\ files w !! f = Some (Regular (snd e))) read.
Proof.
  revert overrides w.
  induction fileOrder as [| [name f] fileOrder IH]; intros overrides w Hin Hrun.
  - cbn [fileOverrides ret] in Hrun. injection Hrun as <- _.
    exists []. split; [now rewrite app_nil_r | constructor].
  - assert (Hrest : forall name' f', (name', f') ∈ fileOrder ->
                      TemplateFileOverrides opts !! name' = Some f')
      by (intros name' f' Hel; apply Hin; now right).
    cbn [fileOverrides] in Hrun.
    destruct (TemplateOverrides opts !! name) as [s |] eqn:Hcontent;
      [now apply (IH overrides w) |].
    unfold bind, os_ReadFile in Hrun.
    destruct (files w !! f) as [[c | d e | e] |] eqn:Hfile;
      try discriminate Hrun.
    destruct (IH _ _ Hrest Hrun) as (read & Hshape & Hread).
    exists ((name, c) :: read). split.
    + rewrite Hshape. cbn [map fst snd]. now rewrite <- app_assoc.
    + constructor; [| exact Hread].
      cbn [fst snd]. split; [exact Hcontent |]. exists f.
      split; [apply Hin; now left | exact Hfile].
Qed.

Lemma fileOrder_lookup opts fileOrder :
  fileOrder ≡ₚ map_to_list (TemplateFileOverrides opts) ->
  forall name f, (name, f) ∈ fileOrder ->
                 TemplateFileOverrides opts !! name = Some f.
Proof.
  intros Hperm name f Hel. rewrite Hperm in Hel.
  now apply elem_of_map_to_list in Hel.
Qed.

(** X28: [ResolveOverrides] changes no file, and the only files it reads are
    template files named for a template that has no content override: a
    content override keeps the file of the same template from being read at
    all.  This holds in whatever order the two maps are visited. *)
Theorem ResolveOverrides_reads contentOrder fileOrder opts w :
  fileOrder ≡ₚ map_to_list (TemplateFileOverrides opts) ->
  files (snd (ResolveOverrides_in contentOrder fileOrder opts w)) = files w
  /\ exists paths,
       effects (snd (ResolveOverrides_in contentOrder fileOrder opts w))
       = effects w ++ map EvReadFile paths
       /\ Forall (fun f => exists name,
                    TemplateFileOverrides opts !! name = Some f
                    /\ TemplateOverrides opts !! name = None) paths.
Proof.
  intros Hperm. unfold ResolveOverrides_in, bind.
  pose proof (fileOverrides_reads opts fileOrder
                (map (fun entry =>
                        WithTemplateOverride (fst entry) (bytes (snd entry)))
                     contentOrder) w (fileOrder_lookup opts fileOrder Hperm))
    as Hloop.
  destruct (fileOverrides opts fileOrder _ w) as [[overrides | err] w1];
    cbn [snd] in Hloop; [| exact Hloop].
  destruct (String.eqb (Format opts) "github"); [exact Hloop |].
  destruct (String.eqb (Format opts) "azure-devops"); [exact Hloop |].
  destruct (String.eqb (Format opts) "plain"); exact Hloop.
Qed.

(** X29: when [ResolveOverrides] succeeds, its options are, in this order: one
    override for every content override, one override for every template file
    read, each for a template without content override and holding the
    contents of its file, and last the one format option, whose format is the
    one the option [Format] names. *)
Theorem ResolveOverrides_result contentOrder fileOrder opts overrides w w' :
  fileOrder ≡ₚ map_to_list (TemplateFileOverrides opts) ->
  ResolveOverrides_in contentOrder fileOrder opts w = (inl overrides, w') ->
  exists (read : list (string * text)) (fmt : format_Format),
    overrides
    = map (fun entry => WithTemplateOverride (fst entry) (bytes (snd entry)))
          contentOrder
      ++ map (fun e => WithTemplateOverride (fst e) (snd e)) read
      ++ [WithFormat fmt]
    /\ Forall (fun e =>
                 TemplateOverrides opts !! fst e = None
                 /\ exists f, TemplateFileOverrides opts !! fst e = Some f
                              /\ files w !! f = Some (Regular (snd e))) read
    /\ Format opts = formatName fmt.
Proof.
  intros Hperm Hrun. unfold ResolveOverrides_in, bind in Hrun.
  destruct (fileOverrides opts fileOrder _ w) as [[found | err] w1] eqn:Hloop;
    [| discriminate Hrun].
  destruct (fileOverrides_result opts fileOrder _ found w w1
              (fileOrder_lookup opts fileOrder Hperm) Hloop)
    as (read & Hshape & Hread).
  destruct (String.eqb_spec (Format opts) "github") as [Hf | _];
    [injection Hrun as <- _; exists read, GitHubFlavoredMarkdown;
     rewrite Hshape, <- app_assoc; now repeat split |].
  destruct (String.eqb_spec (Format opts) "azure-devops") as [Hf | _];
    [injection Hrun as <- _; exists read, AzureDevOpsMarkdown;
     rewrite Hshape, <- app_assoc; now repeat split |].
  destruct (String.eqb_spec (Format opts) "plain") as [Hf | _];
    [injection Hrun as <- _; exists read, PlainMarkdown;
     rewrite Hshape, <- app_assoc; now repeat split | discriminate Hrun].
Qed.
End Overrides.

Lemma ResolveOverrides_reads_witness :
  files (snd (ResolveOverrides_in
                (map_to_list (TemplateOverrides overrideOptions))
                (map_to_list (TemplateFileOverrides overrideOptions))
                overrideOptions templateWorld))
  = files templateWorld
  /\ exists paths,
       effects (snd (ResolveOverrides_in
                       (map_to_list (TemplateOverrides overrideOptions))
                       (map_to_list (TemplateFileOverrides overrideOptions))
                       overrideOptions templateWorld))
       = effects templateWorld ++ map EvReadFile paths
       /\ Forall (fun f => exists name,
                    TemplateFileOverrides overrideOptions !! name = Some f
                    /\ TemplateOverrides overrideOptions !! name = None) paths.
Proof.
  apply (ResolveOverrides_reads
           (map_to_list (TemplateOverrides overrideOptions))
           (map_to_list (TemplateFileOverrides overrideOptions))
           overrideOptions templateWorld).
  reflexivity.
Defined.

Lemma ResolveOverrides_result_witness :
  exists (read : list (string * text)) (fmt : format_Format),
    [WithTemplateOverride "doc" (bytes "inline");
     WithTemplateOverride "func" (bytes "F"); WithFormat PlainMarkdown]
    = map (fun entry => WithTemplateOverride (fst entry) (bytes (snd entry)))
          (map_to_list (TemplateOverrides overrideOptions))
      ++ map (fun e => WithTemplateOverride (fst e) (snd e)) read
      ++ [WithFormat fmt]
    /\ Forall (fun e =>
                 TemplateOverrides overrideOptions !! fst e = None
                 /\ exists f,
                      TemplateFileOverrides overrideOptions !! fst e = Some f
                      /\ files templateWorld !! f = Some (Regular (snd e)))
              read
    /\ Format overrideOptions = formatName fmt.
Proof.
  apply (ResolveOverrides_result
           (map_to_list (TemplateOverrides overrideOptions))
           (map_to_list (TemplateFileOverrides overrideOptions))
           overrideOptions _ templateWorld
           (log_event (EvReadFile "func.tmpl") templateWorld)).
  - reflexivity.
  - vm_compute. reflexivity.
Defined.
